(** * Black-hole simulation: the integrator and the particle registry

    A shallow embedding of [simulation.js]: the field model
    ([acceleration]), the velocity Verlet integrator ([stepVerlet]), the
    particle registry with its per-frame update loop ([animate]) and the
    event handlers that feed it.

    JavaScript numbers are kept abstract behind the interface [Num], with
    three instances: [float] (binary64, the arithmetic the script runs on,
    evaluated with [vm_compute]), [R] (exact arithmetic, in which the
    algebraic statements of the specification are proved) and [checked]
    (exact arithmetic in which a division by zero is seen).

    Objects live in a store indexed by references, because the registry
    compares particles by identity ([indexOf]) and trace entries are
    objects of their own.  The canvas is the list of the calls made on
    its 2D context.  The undeclared global [particle], written by the
    [mouseup] handler and by the last draw loop, is read nowhere and is
    left out. *)

From Stdlib Require Import PrimFloat.
From Stdlib Require Uint63 String.
From Stdlib Require Import ZArith Reals Lra Lia Psatz.
From stdpp Require Import gmap list.
Import String.StringSyntax.

Set Default Proof Using "Type".

(** ** Numbers *)

Class Num (A : Type) := {
  lit : Z → A;                (* an integer literal *)
  nadd : A → A → A;
  nsub : A → A → A;
  nmul : A → A → A;
  ndiv : A → A → A;
  nneg : A → A;               (* unary minus *)
  nsqrt : A → A;              (* Math.sqrt *)
  nlt : A → A → bool;         (* a < b *)
  nseq : A → A → bool;        (* a === b *)
}.

Declare Scope js_scope.
Delimit Scope js_scope with js.
Infix "+" := nadd : js_scope.
Infix "-" := nsub : js_scope.
Infix "*" := nmul : js_scope.
Infix "/" := ndiv : js_scope.
Notation "- a" := (nneg a) : js_scope.
Infix "<?" := nlt : js_scope.
Notation "a >? b" := (nlt b a) : js_scope.
Infix "===" := nseq (at level 70) : js_scope.

(** Binary64, as the script computes. *)
Definition float_of_Z (z : Z) : float :=
  if (z <? 0)%Z then PrimFloat.opp (PrimFloat.of_uint63 (Uint63.of_Z (- z)))
  else PrimFloat.of_uint63 (Uint63.of_Z z).

#[export] Instance float_Num : Num float := {|
  lit := float_of_Z;
  nadd := PrimFloat.add; nsub := PrimFloat.sub;
  nmul := PrimFloat.mul; ndiv := PrimFloat.div;
  nneg := PrimFloat.opp; nsqrt := PrimFloat.sqrt;
  nlt := PrimFloat.ltb; nseq := PrimFloat.eqb |}.

(** Exact arithmetic. *)
#[export] Instance Rlt_decision (a b : R) : Decision (a < b)%R := Rlt_dec a b.
#[export] Instance Req_decision : EqDecision R := Req_dec_T.

#[export] Instance R_Num : Num R := {|
  lit := IZR;
  nadd := Rplus; nsub := Rminus; nmul := Rmult; ndiv := Rdiv;
  nneg := Ropp; nsqrt := R_sqrt.sqrt;
  nlt := λ a b, bool_decide (a < b)%R;
  nseq := λ a b, bool_decide (a = b) |}.

(** Over [R] every division goes through: [Rdiv] is total, with
    [x / 0 = 0].  [checked] is the same arithmetic with the divisions
    watched: a division by zero yields [DivByZero], every operation passes
    it on, and every comparison on it answers [false].  (In binary64 a
    division by zero yields an infinity or, for [0 / 0], NaN, which is
    passed on and compares [false] likewise.)  The square root is that of
    [R]: the script takes roots of sums of squares only. *)
Inductive checked := Val (x : R) | DivByZero.

Definition checked_map (f : R → R) (a : checked) : checked :=
  match a with
  | Val x => Val (f x)
  | DivByZero => DivByZero
  end.

Definition checked_map2 (f : R → R → R) (a b : checked) : checked :=
  match a, b with
  | Val x, Val y => Val (f x y)
  | _, _ => DivByZero
  end.

Definition checked_div (a b : checked) : checked :=
  match a, b with
  | Val x, Val y => if decide (y = 0%R) then DivByZero else Val (x / y)%R
  | _, _ => DivByZero
  end.

Definition checked_test (f : R → R → bool) (a b : checked) : bool :=
  match a, b with
  | Val x, Val y => f x y
  | _, _ => false
  end.

#[export] Instance checked_Num : Num checked := {|
  lit := λ z, Val (IZR z);
  nadd := checked_map2 Rplus; nsub := checked_map2 Rminus;
  nmul := checked_map2 Rmult; ndiv := checked_div;
  nneg := checked_map Ropp; nsqrt := checked_map R_sqrt.sqrt;
  nlt := checked_test (λ a b, bool_decide (a < b)%R);
  nseq := checked_test (λ a b, bool_decide (a = b)) |}.

(** ** Objects *)

Definition loc := positive.

(** A trace entry [{ x, y }]; also the shape of [center], [dragStart] and
    [previewPos]. *)
Record point (A : Type) := Point { pt_x : A; pt_y : A }.
Arguments Point {A} _ _.
Arguments pt_x {A} _.
Arguments pt_y {A} _.

(** The object built in the [mouseup] handler.  [p_trace] is the array
    [trace]: it holds references to the entries pushed into it. *)
Record particle (A : Type) := Particle {
  p_x : A; p_y : A;
  p_vx : A; p_vy : A;
  p_ax : A; p_ay : A;
  p_trace : list loc }.
Arguments Particle {A} _ _ _ _ _ _ _.
Arguments p_x {A} _.
Arguments p_y {A} _.
Arguments p_vx {A} _.
Arguments p_vy {A} _.
Arguments p_ax {A} _.
Arguments p_ay {A} _.
Arguments p_trace {A} _.

Inductive obj (A : Type) :=
  | OParticle (p : particle A)
  | OPoint (q : point A).
Arguments OParticle {A} _.
Arguments OPoint {A} _.

(** What [acceleration] returns: [{ ax, ay, r }]. *)
Record accel (A : Type) := Accel { a_ax : A; a_ay : A; a_r : A }.
Arguments Accel {A} _ _ _.
Arguments a_ax {A} _.
Arguments a_ay {A} _.
Arguments a_r {A} _.

Section Fields.
Context {A : Type}.

Definition set_x (v : A) (p : particle A) : particle A :=
  Particle v (p_y p) (p_vx p) (p_vy p) (p_ax p) (p_ay p) (p_trace p).
Definition set_y (v : A) (p : particle A) : particle A :=
  Particle (p_x p) v (p_vx p) (p_vy p) (p_ax p) (p_ay p) (p_trace p).
Definition set_vx (v : A) (p : particle A) : particle A :=
  Particle (p_x p) (p_y p) v (p_vy p) (p_ax p) (p_ay p) (p_trace p).
Definition set_vy (v : A) (p : particle A) : particle A :=
  Particle (p_x p) (p_y p) (p_vx p) v (p_ax p) (p_ay p) (p_trace p).
Definition set_ax (v : A) (p : particle A) : particle A :=
  Particle (p_x p) (p_y p) (p_vx p) (p_vy p) v (p_ay p) (p_trace p).
Definition set_ay (v : A) (p : particle A) : particle A :=
  Particle (p_x p) (p_y p) (p_vx p) (p_vy p) (p_ax p) v (p_trace p).
Definition set_trace (t : list loc) (p : particle A) : particle A :=
  Particle (p_x p) (p_y p) (p_vx p) (p_vy p) (p_ax p) (p_ay p) t.

(** Reading [o.x] and [o.y] works on a particle and on a trace entry
    alike. *)
Definition obj_xy (o : obj A) : point A :=
  match o with
  | OParticle p => Point (p_x p) (p_y p)
  | OPoint q => q
  end.

(** The particle seen as the argument of [acceleration], which reads
    only [p.x] and [p.y]. *)
Definition pos (p : particle A) : point A := Point (p_x p) (p_y p).
End Fields.

(** ** Field model and integrator *)

Section Physics.
Context {A : Type} `{Num A}.
Local Open Scope js_scope.

Definition G : A := lit 100.
Definition M : A := lit 1000.
Definition dt : A := lit 1 / lit 10.          (* 0.1 *)
Definition BH_RADIUS : A := lit 32.
Definition half : A := lit 1 / lit 2.          (* 0.5 *)

(** [function acceleration(p)]; [c] is the global [center]. *)
Definition acceleration (c : point A) (p : point A) : accel A :=
  let dx := pt_x p - pt_x c in
  let dy := pt_y p - pt_y c in
  let r := nsqrt (dx * dx + dy * dy) in
  if r === lit 0 then Accel (lit 0) (lit 0) (lit 0)
  else
    let aMag := (G * M) / (r * r) in
    let ax := (- aMag) * (dx / r) in
    let ay := (- aMag) * (dy / r) in
    Accel ax ay r.

(** The same body with the line [if (r === 0) return ...] taken out.  The
    script has no such function: it is here to show what the test
    prevents. *)
Definition acceleration_without_guard (c : point A) (p : point A)
  : accel A :=
  let dx := pt_x p - pt_x c in
  let dy := pt_y p - pt_y c in
  let r := nsqrt (dx * dx + dy * dy) in
  let aMag := (G * M) / (r * r) in
  let ax := (- aMag) * (dx / r) in
  let ay := (- aMag) * (dy / r) in
  Accel ax ay r.

(** [function stepVerlet(p, dt)], first half: [a(t)] and [x(t+dt)]. *)
Definition stepVerlet_position (c : point A) (p : particle A) (dt : A)
  : particle A :=
  let a0 := acceleration c (pos p) in
  let p := set_ax (a_ax a0) p in
  let p := set_ay (a_ay a0) p in
  let p := set_x (p_x p + (p_vx p * dt + half * p_ax p * dt * dt)) p in
  let p := set_y (p_y p + (p_vy p * dt + half * p_ay p * dt * dt)) p in
  p.

(** Second half: [a(t+dt)], [v(t+dt)], and the returned [a1.r]. *)
Definition stepVerlet_velocity (c : point A) (p : particle A) (dt : A)
  : particle A * A :=
  let a1 := acceleration c (pos p) in
  let p := set_vx (p_vx p + half * (p_ax p + a_ax a1) * dt) p in
  let p := set_vy (p_vy p + half * (p_ay p + a_ay a1) * dt) p in
  let p := set_ax (a_ax a1) p in
  let p := set_ay (a_ay a1) p in
  (p, a_r a1).

Definition stepVerlet (c : point A) (p : particle A) (dt : A)
  : particle A * A :=
  stepVerlet_velocity c (stepVerlet_position c p dt) dt.
End Physics.

(** Exact values seen as checked ones. *)
Definition val_point (q : point R) : point checked :=
  Point (Val (pt_x q)) (Val (pt_y q)).

Definition val_accel (a : accel R) : accel checked :=
  Accel (Val (a_ax a)) (Val (a_ay a)) (Val (a_r a)).

Definition val_particle (p : particle R) : particle checked :=
  Particle (Val (p_x p)) (Val (p_y p)) (Val (p_vx p)) (Val (p_vy p))
           (Val (p_ax p)) (Val (p_ay p)) (p_trace p).

(** ** Arrays *)

Section Arrays.
Context {T : Type} `{EqDecision T}.

(** [Array.prototype.indexOf]: the first index holding [v], or [-1]. *)
Fixpoint indexOf_from (l : list T) (v : T) (i : Z) : Z :=
  match l with
  | [] => (-1)%Z
  | a :: l' => if decide (a = v) then i else indexOf_from l' v (i + 1)%Z
  end.
Definition indexOf (l : list T) (v : T) : Z := indexOf_from l v 0.

(** [Array.prototype.splice(start, deleteCount)] without inserted items:
    a negative [start] counts from the end, and both bounds are clamped
    to the array. *)
Definition splice (l : list T) (start deleteCount : Z) : list T :=
  let len := Z.of_nat (length l) in
  let actualStart :=
    if (start <? 0)%Z then Z.max (len + start) 0 else Z.min start len in
  let actualDeleteCount :=
    Z.min (Z.max deleteCount 0) (len - actualStart) in
  take (Z.to_nat actualStart) l
    ++ drop (Z.to_nat (actualStart + actualDeleteCount)) l.

Definition push (l : list T) (v : T) : list T := l ++ [v].
Definition shift (l : list T) : list T := tail l.
End Arrays.

(** ** The simulation state: the script's globals and the object store *)

Record sim (A : Type) := Sim {
  heap : gmap loc (obj A);
  center : point A;
  innerWidth : A;
  innerHeight : A;
  particles : list loc;
  traceOn : bool;
  velocityOn : bool;
  accelOn : bool;
  dragging : bool;
  dragStart : option (point A);
  previewPos : option (point A) }.
Arguments Sim {A} _ _ _ _ _ _ _ _ _ _ _.
Arguments heap {A} _.
Arguments center {A} _.
Arguments innerWidth {A} _.
Arguments innerHeight {A} _.
Arguments particles {A} _.
Arguments traceOn {A} _.
Arguments velocityOn {A} _.
Arguments accelOn {A} _.
Arguments dragging {A} _.
Arguments dragStart {A} _.
Arguments previewPos {A} _.

Section Globals.
Context {A : Type}.

Definition with_heap (h : gmap loc (obj A)) (st : sim A) : sim A :=
  Sim h (center st) (innerWidth st) (innerHeight st) (particles st)
    (traceOn st) (velocityOn st) (accelOn st)
    (dragging st) (dragStart st) (previewPos st).
Definition with_particles (l : list loc) (st : sim A) : sim A :=
  Sim (heap st) (center st) (innerWidth st) (innerHeight st) l
    (traceOn st) (velocityOn st) (accelOn st)
    (dragging st) (dragStart st) (previewPos st).
Definition with_center (c : point A) (st : sim A) : sim A :=
  Sim (heap st) c (innerWidth st) (innerHeight st) (particles st)
    (traceOn st) (velocityOn st) (accelOn st)
    (dragging st) (dragStart st) (previewPos st).
Definition with_window (w h : A) (st : sim A) : sim A :=
  Sim (heap st) (center st) w h (particles st)
    (traceOn st) (velocityOn st) (accelOn st)
    (dragging st) (dragStart st) (previewPos st).
Definition with_toggles (t v a : bool) (st : sim A) : sim A :=
  Sim (heap st) (center st) (innerWidth st) (innerHeight st) (particles st)
    t v a (dragging st) (dragStart st) (previewPos st).
Definition with_drag (d : bool) (s p : option (point A)) (st : sim A)
  : sim A :=
  Sim (heap st) (center st) (innerWidth st) (innerHeight st) (particles st)
    (traceOn st) (velocityOn st) (accelOn st) d s p.
End Globals.

(** ** Event handlers and the frame loop *)

Inductive event (A : Type) :=
  | Resize (w h : A)             (* the window becomes [w] by [h] *)
  | MouseDown (x y : A)
  | MouseMove (x y : A)
  | MouseUp (x y : A)
  | ResetClick
  | ToggleTrace
  | ToggleVelocity
  | ToggleAcceleration
  | Frame.                       (* the animation frame callback *)
Arguments Resize {A} _ _.
Arguments MouseDown {A} _ _.
Arguments MouseMove {A} _ _.
Arguments MouseUp {A} _ _.
Arguments ResetClick {A}.
Arguments ToggleTrace {A}.
Arguments ToggleVelocity {A}.
Arguments ToggleAcceleration {A}.
Arguments Frame {A}.

Section Simulation.
Context {A : Type} `{Num A}.
Local Open Scope js_scope.

(** [function resize()]: recentre the field source. *)
Definition resize (st : sim A) : sim A :=
  with_center (Point (innerWidth st / lit 2) (innerHeight st / lit 2)) st.

(** The state once the script has loaded in a [w] by [h] window. *)
Definition init (w h : A) : sim A :=
  resize (Sim ∅ (Point (w / lit 2) (h / lit 2)) w h []
              true false false false None None).

(** [function resetParticle()]. *)
Definition resetParticle (st : sim A) : sim A := with_particles [] st.

Definition vscale : A := lit 5 / lit 100.      (* 0.05 *)

Definition mousedown (x y : A) (st : sim A) : sim A :=
  with_drag true (Some (Point x y)) (Some (Point x y)) st.

Definition mousemove (x y : A) (st : sim A) : sim A :=
  if dragging st
  then with_drag (dragging st) (dragStart st) (Some (Point x y)) st
  else st.

(** The [mouseup] handler: build the particle and push it. *)
Definition mouseup (x y : A) (st : sim A) : sim A :=
  if negb (dragging st) then st
  else
    let st := with_drag false (dragStart st) (previewPos st) st in
    match dragStart st with
    | Some start =>
        let vx := (x - pt_x start) * vscale in
        let vy := (y - pt_y start) * vscale in
        let particle :=
          Particle (pt_x start) (pt_y start) vx vy (lit 0) (lit 0) [] in
        let l := fresh (dom (heap st)) in
        let st := with_heap (<[l := OParticle particle]> (heap st)) st in
        with_particles (push (particles st) l) st
    | None => st       (* [dragging] is only set along with [dragStart] *)
    end.

(** Lines 213-214 on the particle object, [t] being the reference to
    the entry just built: push it, then drop the oldest entry when the
    trace has grown past 1200. *)
Definition record_trace (t : loc) (p : particle A) : particle A :=
  let p := set_trace (push (p_trace p) t) p in
  if (1200 <? length (p_trace p))%nat
  then set_trace (shift (p_trace p)) p else p.

(** Lines 211-214 of the frame loop for the particle at [l]: step it and
    record the trace entry [{ x: particle.x, y: particle.y }], a new
    object.  Returns the [r] of [stepVerlet]. *)
Definition advance (l : loc) (st : sim A) : sim A * A :=
  match heap st !! l with
  | Some (OParticle p) =>
      let '(p, r) := stepVerlet (center st) p dt in
      let t := fresh (dom (heap st)) in
      let h := <[t := OPoint (Point (p_x p) (p_y p))]> (heap st) in
      let p := record_trace t p in
      (with_heap (<[l := OParticle p]> h) st, r)
  | _ => (st, lit 0)   (* the registry holds particles only *)
  end.

(** [r < BH_RADIUS] *)
Definition swallowed (r : A) : bool := r <? BH_RADIUS.

(** The far-offscreen test of lines 223-226 on the object at [l]. *)
Definition offscreen (l : loc) (st : sim A) : bool :=
  match heap st !! l with
  | Some o =>
      let q := obj_xy o in
      (pt_x q <? - lit 2000)
      || (pt_x q >? innerWidth st + lit 2000)
      || (pt_y q <? - lit 2000)
      || (pt_y q >? innerHeight st + lit 2000)
  | None => false
  end.

(** [particles.splice(particles.indexOf(particle), 1)] *)
Definition remove_particle (l : loc) (st : sim A) : sim A :=
  with_particles (splice (particles st) (indexOf (particles st) l) 1) st.

(** The body of the loop of lines 210-230 for the particle at [l]. *)
Definition visit (l : loc) (st : sim A) : sim A * A :=
  let '(st, r) := advance l st in
  let st := if swallowed r then remove_particle l st else st in
  (* [particle && ...]: an object reference is truthy *)
  let st := if offscreen l st then remove_particle l st else st in
  (st, r).

(** [for (const particle of particles)]: the array iterator keeps an
    index [i] and reads the live array at each turn.  Besides the
    state, the loop returns the particles it visited with the [r] each
    one got. *)
Fixpoint forOf (fuel : nat) (i : nat) (st : sim A)
  : sim A * list (loc * A) :=
  match fuel with
  | O => (st, [])
  | S fuel =>
      match particles st !! i with
      | None => (st, [])
      | Some l =>
          let '(st, r) := visit l st in
          let '(st, log) := forOf fuel (S i) st in
          (st, (l, r) :: log)
      end
  end.

(** Lines 209-231: one tick of the registry. *)
Definition tick_run (st : sim A) : sim A * list (loc * A) :=
  if (0 <? length (particles st))%nat
  then forOf (length (particles st)) 0 st
  else (st, []).
Definition tick (st : sim A) : sim A := fst (tick_run st).
Definition tick_log (st : sim A) : list (loc * A) := snd (tick_run st).

(** [function animate(now)]: the tick, then the draw passes over the
    registry as the tick left it (the overlays of lines 233-271 only read
    the state); returns the particles handed to [drawParticle]. *)
Definition animate (st : sim A) : sim A * list loc :=
  let st := tick st in
  (st, particles st).

Definition handle (e : event A) (st : sim A) : sim A :=
  match e with
  | Resize w h => resize (with_window w h st)
  | MouseDown x y => mousedown x y st
  | MouseMove x y => mousemove x y st
  | MouseUp x y => mouseup x y st
  | ResetClick => resetParticle st
  | ToggleTrace =>
      with_toggles (negb (traceOn st)) (velocityOn st) (accelOn st) st
  | ToggleVelocity =>
      with_toggles (traceOn st) (negb (velocityOn st)) (accelOn st) st
  | ToggleAcceleration =>
      with_toggles (traceOn st) (velocityOn st) (negb (accelOn st)) st
  | Frame => fst (animate st)
  end.

Definition run (es : list (event A)) (st : sim A) : sim A :=
  foldl (λ st e, handle e st) st es.
End Simulation.

(** ** Well-formed states *)

Section Invariant.
Context {A : Type}.

(** What every state the script reaches satisfies: no particle is
    registered twice, the registry holds references to particle
    objects, and traces hold references to entry objects. *)
Record wf (st : sim A) : Prop := {
  wf_nodup : NoDup (particles st);
  wf_registry : ∀ l, l ∈ particles st →
    ∃ p, heap st !! l = Some (OParticle p);
  wf_trace : ∀ l p t, heap st !! l = Some (OParticle p) → t ∈ p_trace p →
    ∃ q, heap st !! t = Some (OPoint q) }.

(** No trace is longer than 1200 entries. *)
Definition trace_bounded (st : sim A) : Prop :=
  ∀ l p, heap st !! l = Some (OParticle p) → length (p_trace p) ≤ 1200.

(** [h'] extends [h]: entry objects are kept as they are, and particle
    objects stay particle objects. *)
Definition heap_ext (h h' : gmap loc (obj A)) : Prop :=
  ∀ l, (∀ q, h !! l = Some (OPoint q) → h' !! l = Some (OPoint q))
     ∧ (∀ p, h !! l = Some (OParticle p) →
          ∃ p', h' !! l = Some (OParticle p')).

(** The length of the trace of the particle at [l]. *)
Definition trace_length (st : sim A) (l : loc) : option nat :=
  match heap st !! l with
  | Some (OParticle p) => Some (length (p_trace p))
  | _ => None
  end.
End Invariant.

(** ** The frame loop in closed form *)

Section LoopSummary.
Context {A : Type} `{Num A}.

(** The two removal tests of a visit to [l], taken from the state the
    visit starts in. *)
Definition doomed (st : sim A) (l : loc) : bool :=
  swallowed (advance l st).2 || offscreen l (advance l st).1.
Definition both_tests (st : sim A) (l : loc) : bool :=
  swallowed (advance l st).2 && offscreen l (advance l st).1.

(** What the loop leaves of an array when [d] tells which visits end in a
    removal: the element after a removed one slides into its place and the
    iterator steps over it. *)
Fixpoint survivors (d : loc → bool) (ls : list loc) : list loc :=
  match ls with
  | [] => []
  | l :: rest =>
      if d l
      then match rest with
           | [] => []
           | l' :: rest' => l' :: survivors d rest'
           end
      else l :: survivors d rest
  end.

(** The elements the loop visits. *)
Fixpoint visited (d : loc → bool) (ls : list loc) : list loc :=
  match ls with
  | [] => []
  | l :: rest =>
      l :: (if d l
            then match rest with
                 | [] => []
                 | _ :: rest' => visited d rest'
                 end
            else visited d rest)
  end.
End LoopSummary.

(** ** Traces and the window *)

Section TraceDefs.
Context {A : Type} `{Num A}.

(** The last entry of every non-empty trace holds the position its
    particle is at. *)
Definition trace_tip (st : sim A) : Prop :=
  ∀ l p t, heap st !! l = Some (OParticle p) → last (p_trace p) = Some t →
    heap st !! t = Some (OPoint (pos p)).

(** The positions a trace denotes, oldest first. *)
Definition trace_positions (st : sim A) (p : particle A)
  : list (option (point A)) :=
  (λ t, obj_xy <$> heap st !! t) <$> p_trace p.

(** [center] is where [resize] puts it for the current window. *)
Definition center_synced (st : sim A) : Prop :=
  center st = Point (ndiv (innerWidth st) (lit 2))
                    (ndiv (innerHeight st) (lit 2)).
End TraceDefs.

(** ** Input *)

Section InputDefs.
Context {A : Type} `{Num A}.

(** The events that touch only the overlay switches and the drag
    preview. *)
Definition ui_only (e : event A) : bool :=
  match e with
  | ToggleTrace | ToggleVelocity | ToggleAcceleration
  | MouseDown _ _ | MouseMove _ _ => true
  | _ => false
  end.

(** The moves of a drag, as events. *)
Definition moves (ms : list (A * A)) : list (event A) :=
  (λ m, MouseMove m.1 m.2) <$> ms.
End InputDefs.

(** ** The canvas *)

(** What [fillStyle] is set to: a colour, or the gradient of
    [createRadialGradient] with its colour stops. *)
Inductive paint (A : Type) :=
  | Colour (s : String.string)
  | RadialGradient (x0 y0 r0 x1 y1 r1 : A)
      (stops : list (A * String.string)).
Arguments Colour {A} _.
Arguments RadialGradient {A} _ _ _ _ _ _ _.

(** The calls made on the 2D context, in order.  [Arc x y r] is
    [arc(x, y, r, 0, Math.PI * 2)], and [FillText s v x y] is
    [fillText(s + v.toExponential(2), x, y)]. *)
Inductive cmd (A : Type) :=
  | FillStyle (s : paint A)
  | StrokeStyle (s : String.string)
  | LineWidth (w : A)
  | Font (s : String.string)
  | BeginPath
  | MoveTo (x y : A)
  | LineTo (x y : A)
  | Arc (x y r : A)
  | Stroke
  | Fill
  | FillRect (x y w h : A)
  | FillText (s : String.string) (v : A) (x y : A).
Arguments FillStyle {A} _.
Arguments StrokeStyle {A} _.
Arguments LineWidth {A} _.
Arguments Font {A} _.
Arguments BeginPath {A}.
Arguments MoveTo {A} _ _.
Arguments LineTo {A} _ _.
Arguments Arc {A} _ _ _.
Arguments Stroke {A}.
Arguments Fill {A}.
Arguments FillRect {A} _ _ _ _.
Arguments FillText {A} _ _ _ _.

Section Canvas.
Context {A : Type} `{Num A}.
Local Open Scope js_scope.
Local Open Scope string_scope.

(** [function clearCanvas()] *)
Definition clearCanvas (st : sim A) : list (cmd A) :=
  [FillStyle (Colour "#1A1A1A");
   FillRect (lit 0) (lit 0) (innerWidth st) (innerHeight st)].

(** [function drawBH()] *)
Definition drawBH (st : sim A) : list (cmd A) :=
  let cx := pt_x (center st) in
  let cy := pt_y (center st) in
  [FillStyle (RadialGradient cx cy BH_RADIUS cx cy (BH_RADIUS * lit 10)
                [(lit 0, "rgba(255,98,0,0.9)");
                 (half, "rgba(255,170,100,0.25)");
                 (lit 1, "rgba(0,0,0,0.0)")]);
   BeginPath; Arc cx cy (BH_RADIUS * lit 12); Fill;
   FillStyle (Colour "#000");
   BeginPath; Arc cx cy BH_RADIUS; Fill].

(** The loop of lines 172-176 over the trace array [ts]. *)
Definition trace_path (st : sim A) (ts : list loc) : list (cmd A) :=
  mjoin (imap (λ i t,
    match heap st !! t with
    | Some o =>
        let q := obj_xy o in
        [if decide (i = 0%nat) then MoveTo (pt_x q) (pt_y q)
         else LineTo (pt_x q) (pt_y q)]
    | None => []
    end) ts).

(** [function drawParticle(p)]; [None] stands for a falsy argument. *)
Definition drawParticle (st : sim A) (p : option loc) : list (cmd A) :=
  match p with
  | None => []
  | Some l =>
      match heap st !! l with
      | Some (OParticle p) =>
          (if traceOn st
           then [BeginPath] ++ trace_path st (p_trace p)
                ++ [StrokeStyle "rgba(255,255,255,0.6)";
                    LineWidth (lit 1); Stroke]
           else [])
          ++ [FillStyle (Colour "#fff");
              BeginPath; Arc (p_x p) (p_y p) (lit 3); Fill]
      | _ => []
      end
  end.

(** Lines 195-207: the drag preview. *)
Definition drawPreview (st : sim A) : list (cmd A) :=
  if dragging st then
    match dragStart st, previewPos st with
    | Some s, Some e =>
        [StrokeStyle "#8f8"; LineWidth (lit 1); BeginPath;
         MoveTo (pt_x s) (pt_y s); LineTo (pt_x e) (pt_y e); Stroke;
         FillStyle (Colour "#8f8");
         BeginPath; Arc (pt_x s) (pt_y s) (lit 4); Fill]
    | _, _ => []
    end
  else [].

(** The body of the loop of lines 235-252 for the particle at [l]. *)
Definition velocity_arrow (st : sim A) (l : loc) : list (cmd A) :=
  match heap st !! l with
  | Some (OParticle p) =>
      let vScale := lit 5 in
      let vMag := nsqrt (p_vx p * p_vx p + p_vy p * p_vy p) in
      [StrokeStyle "rgba(80,200,255,0.9)"; LineWidth (lit 2); BeginPath;
       MoveTo (p_x p) (p_y p);
       LineTo (p_x p + p_vx p * vScale) (p_y p + p_vy p * vScale);
       Stroke;
       FillStyle (Colour "#8ff"); Font "12px Arial";
       FillText "v=" vMag (p_x p + lit 6) (p_y p - lit 18)]
  | _ => []
  end.

(** The body of the loop of lines 257-270 for the particle at [l]. *)
Definition acceleration_arrow (st : sim A) (l : loc) : list (cmd A) :=
  match heap st !! l with
  | Some (OParticle p) =>
      let aScale := lit 20 in
      let acc := acceleration (center st) (pos p) in
      let aMag := nsqrt (a_ax acc * a_ax acc + a_ay acc * a_ay acc) in
      [StrokeStyle "rgba(255,80,80,0.9)"; LineWidth (lit 2); BeginPath;
       MoveTo (p_x p) (p_y p);
       LineTo (p_x p + a_ax acc * aScale) (p_y p + a_ay acc * aScale);
       Stroke;
       FillStyle (Colour "#f88"); Font "12px Arial";
       FillText "a=" aMag (p_x p + lit 6) (p_y p - lit 6)]
  | _ => []
  end.

(** Lines 233-275, on the state the tick left. *)
Definition drawOverlays (st : sim A) : list (cmd A) :=
  (if (0 <? length (particles st))%nat && velocityOn st
   then flat_map (velocity_arrow st) (particles st) else [])
  ++ (if (0 <? length (particles st))%nat && accelOn st
      then flat_map (acceleration_arrow st) (particles st) else [])
  ++ flat_map (λ l, drawParticle st (Some l)) (particles st).

(** All the canvas calls of one [animate(now)]. *)
Definition animate_canvas (st : sim A) : list (cmd A) :=
  clearCanvas st ++ drawBH st ++ drawPreview st ++ drawOverlays (tick st).

(** A path through the points [qs]: [moveTo] the first, [lineTo] the
    others. *)
Definition polyline (qs : list (point A)) : list (cmd A) :=
  match qs with
  | [] => []
  | q :: qs' =>
      MoveTo (pt_x q) (pt_y q) :: ((λ q, LineTo (pt_x q) (pt_y q)) <$> qs')
  end.
End Canvas.

(** ** Whole states with the divisions watched *)

Definition val_obj (o : obj R) : obj checked :=
  match o with
  | OParticle p => OParticle (val_particle p)
  | OPoint q => OPoint (val_point q)
  end.

Definition val_sim (st : sim R) : sim checked :=
  Sim (val_obj <$> heap st) (val_point (center st))
      (Val (innerWidth st)) (Val (innerHeight st)) (particles st)
      (traceOn st) (velocityOn st) (accelOn st) (dragging st)
      (val_point <$> dragStart st) (val_point <$> previewPos st).

Definition val_event (e : event R) : event checked :=
  match e with
  | Resize w h => Resize (Val w) (Val h)
  | MouseDown x y => MouseDown (Val x) (Val y)
  | MouseMove x y => MouseMove (Val x) (Val y)
  | MouseUp x y => MouseUp (Val x) (Val y)
  | ResetClick => ResetClick
  | ToggleTrace => ToggleTrace
  | ToggleVelocity => ToggleVelocity
  | ToggleAcceleration => ToggleAcceleration
  | Frame => Frame
  end.

(** The particles a loop stepped, with the [r] of each. *)
Definition val_log (log : list (loc * R)) : list (loc * checked) :=
  (λ lr, (lr.1, Val lr.2)) <$> log.

(** ** Exact arithmetic: the quantities the specification speaks of *)

Section ExactDefinitions.
Local Open Scope R_scope.

(** Euclidean distance of [q] from the centre [c]. *)
Definition dist (c q : point R) : R :=
  sqrt ((pt_x q - pt_x c) * (pt_x q - pt_x c)
        + (pt_y q - pt_y c) * (pt_y q - pt_y c)).

(** The velocity Verlet step in the specification's words:
    1. [a0 = field(position)];
    2. [position' = position + velocity*dt + 0.5*a0*dt^2];
    3. [a1 = field(position')];
    4. [velocity' = velocity + 0.5*(a0 + a1)*dt];
    5. store [a1], return the [r] of step 3. *)
Definition velocity_verlet (c : point R) (p : particle R) (h : R)
  : particle R * R :=
  let a0 := acceleration c (pos p) in
  let x1 := p_x p + p_vx p * h + 1 / 2 * a_ax a0 * h ^ 2 in
  let y1 := p_y p + p_vy p * h + 1 / 2 * a_ay a0 * h ^ 2 in
  let a1 := acceleration c (Point x1 y1) in
  let vx1 := p_vx p + 1 / 2 * (a_ax a0 + a_ax a1) * h in
  let vy1 := p_vy p + 1 / 2 * (a_ay a0 + a_ay a1) * h in
  (Particle x1 y1 vx1 vy1 (a_ax a1) (a_ay a1) (p_trace p), a_r a1).

(** The field source sits in the middle of a window of non-negative
    size, as [resize] leaves it. *)
Definition centred (st : sim R) : Prop :=
  center st = Point (innerWidth st / 2) (innerHeight st / 2)
  ∧ 0 <= innerWidth st ∧ 0 <= innerHeight st.

(** Angular momentum about the centre, per unit mass. *)
Definition angular_momentum (c : point R) (p : particle R) : R :=
  (p_x p - pt_x c) * p_vy p - (p_y p - pt_y c) * p_vx p.

(** The particle with its velocity reversed. *)
Definition reversed (p : particle R) : particle R :=
  set_vy (- p_vy p) (set_vx (- p_vx p) p).

Definition valid_event (e : event R) : Prop :=
  match e with
  | Resize w h => 0 <= w ∧ 0 <= h
  | _ => True
  end.
End ExactDefinitions.

(** ** Concrete runs in binary64 *)

(** A press at [(x, y)] released at [(ex, ey)]. *)
Definition launch (x y ex ey : Z) : list (event float) :=
  [MouseDown (lit x) (lit y); MouseUp (lit ex) (lit ey)].

(** In a 1000 by 800 window: a particle dropped at rest 33 from the
    centre, one frame, then a second particle launched on a wide orbit. *)
Definition skip_scenario : sim float :=
  run (launch 533 400 533 400 ++ [Frame] ++ launch 800 400 800 765)
      (init (lit 1000) (lit 800)).

(** Two particles dropped at rest 36 and 33 from the centre, a frame
    after each, then a third launched on a wide orbit. *)
Definition short_trace_scenario : sim float :=
  run (launch 536 400 536 400 ++ [Frame]
       ++ launch 533 400 533 400 ++ [Frame]
       ++ launch 800 400 800 765)
      (init (lit 1000) (lit 800)).

(** In a 12000 by 800 window: a particle 10 from the centre, launched
    outwards with a 5980 pixel drag. *)
Definition fast_scenario : sim float :=
  run (launch 6010 400 11990 400) (init (lit 12000) (lit 800)).

(** A particle dropped at rest 10 from the centre of a 1000 by 800
    window. *)
Definition drop_scenario : sim float :=
  run (launch 510 400 510 400) (init (lit 1000) (lit 800)).

(** A particle on a wide orbit, two frames after its launch. *)
Definition orbit_scenario : sim float :=
  run (launch 800 400 800 765 ++ [Frame; Frame])
      (init (lit 1000) (lit 800)).

(** A particle dropped at rest 33 from the centre, one frame, then a
    second particle dropped at rest 10 from the centre, well inside the
    swallow radius. *)
Definition inside_scenario : sim float :=
  run (launch 533 400 533 400 ++ [Frame] ++ launch 510 400 510 400)
      (init (lit 1000) (lit 800)).

(** In a 12000 by 12000 window, one state each: a particle 10 from the
    centre launched at speed 250 outwards, inwards, across, and outwards
    from the offset [(6, 8)]. *)
Definition brisk_scenarios : list (sim float) :=
  (λ '(x, y, ex, ey), run (launch x y ex ey) (init (lit 12000) (lit 12000)))
  <$> [(6010, 6000, 11010, 6000); (6010, 6000, 1010, 6000);
       (6010, 6000, 6010, 11000); (6006, 6008, 9006, 10008)]%Z.

(** A particle 10 from the centre of a 1000 by 800 window, moving
    outwards at speed [v]. *)
Definition outward_scenario (v : float) : sim float :=
  with_particles [1%positive]
    (with_heap
       {[ 1%positive := OParticle (Particle (lit 510) (lit 400) v (lit 0)
                                            (lit 0) (lit 0) []) ]}
       (init (lit 1000) (lit 800))).

(** A particle on a wide orbit, 1250 frames after its launch. *)
Definition full_trace_scenario : sim float :=
  run (launch 800 400 800 765 ++ replicate 1250 Frame)
      (init (lit 1000) (lit 800)).

(** A particle dropped near the right edge of a 12000 by 800 window,
    which is then resized to 1000 by 800. *)
Definition escape_scenario : sim float :=
  run (launch 11990 400 11990 400 ++ [Resize (lit 1000) (lit 800)])
      (init (lit 12000) (lit 800)).

(** A state no run reaches, its centre not being the middle of the
    window: two particles at rest, the first 10 from the centre and far
    offscreen. *)
Definition off_centre_state : sim float :=
  Sim (<[1%positive := OParticle (Particle (lit 5010) (lit 400) (lit 0)
                                            (lit 0) (lit 0) (lit 0) [])]>
        (<[2%positive := OParticle (Particle (lit 500) (lit 300) (lit 0)
                                              (lit 0) (lit 0) (lit 0) [])]>
           ∅))
      (Point (lit 5000) (lit 400)) (lit 1000) (lit 800)
      [1%positive; 2%positive] true false false false None None.

(** Five launches. *)
Definition five_scenario : sim float :=
  run (launch 100 100 120 100 ++ launch 200 100 200 150
       ++ launch 300 300 310 310 ++ launch 700 500 650 500
       ++ launch 900 700 900 600)
      (init (lit 1000) (lit 800)).

(** * Proofs *)

Ltac exact_arith :=
  cbn [lit nadd nsub nmul ndiv nneg nsqrt nlt nseq R_Num] in *.

(** ** Arrays *)

Section ArrayFacts.
Context {T : Type} `{EqDecision T}.
Implicit Types l : list T.

Lemma indexOf_from_notin l v i : v ∉ l → indexOf_from l v i = (-1)%Z.
Proof.
  revert i. induction l as [|a l IH]; intros i Hv; simpl; [done|].
  apply not_elem_of_cons in Hv as [Hne Hv].
  rewrite decide_False by done. by apply IH.
Qed.

Lemma indexOf_from_split l1 v l2 i :
  v ∉ l1 → indexOf_from (l1 ++ v :: l2) v i = (i + Z.of_nat (length l1))%Z.
Proof.
  revert i. induction l1 as [|a l1 IH]; intros i Hv; simpl.
  - rewrite decide_True by done. lia.
  - apply not_elem_of_cons in Hv as [Hne Hv].
    rewrite decide_False by done. rewrite IH by done. lia.
Qed.

Lemma splice_one_at l1 v l2 :
  splice (l1 ++ v :: l2) (Z.of_nat (length l1)) 1 = l1 ++ l2.
Proof.
  unfold splice. rewrite length_app. simpl.
  rewrite (proj2 (Z.ltb_ge _ _)) by lia.
  rewrite Z.min_l by lia.
  rewrite Z.max_l by lia. rewrite Z.min_l by lia.
  rewrite Nat2Z.id.
  replace (Z.to_nat (Z.of_nat (length l1) + 1)) with (S (length l1)) by lia.
  rewrite take_app_length.
  by rewrite cons_middle, app_assoc, drop_app_length'
    by (rewrite length_app; simpl; lia).
Qed.

(** A negative start counts from the end: [splice(-1, 1)] drops the last
    element. *)
Lemma splice_minus_one l : splice l (-1) 1 = take (length l - 1) l.
Proof.
  unfold splice. simpl.
  destruct l as [|a l]; [done|].
  cbn [length]. rewrite Z.max_l by lia.
  rewrite Z.max_l by lia. rewrite Z.min_l by lia.
  replace (Z.to_nat (Z.of_nat (S (length l)) + -1))
    with (S (length l) - 1) by lia.
  replace (Z.to_nat (Z.of_nat (S (length l)) + -1 + 1))
    with (length (a :: l)) by (simpl; lia).
  rewrite drop_all. by rewrite app_nil_r.
Qed.

Lemma filter_ne_notin l v : v ∉ l → filter (λ x, x ≠ v) l = l.
Proof.
  induction l as [|a l IH]; intros Hv; [done|].
  apply not_elem_of_cons in Hv as [Hne Hv].
  rewrite filter_cons_True by done. by rewrite IH.
Qed.

(** [l.splice(l.indexOf(v), 1)] when [v] occurs once: exactly [v] goes. *)
Lemma splice_indexOf_in l v :
  NoDup l → v ∈ l → splice l (indexOf l v) 1 = filter (λ x, x ≠ v) l.
Proof.
  intros Hnd Hv.
  apply list_elem_of_split_l in Hv as (l1 & l2 & -> & Hv1).
  apply NoDup_app in Hnd as (_ & Hdisj & Hnd2).
  apply NoDup_cons in Hnd2 as [Hv2 _].
  unfold indexOf. rewrite indexOf_from_split by done. simpl.
  rewrite splice_one_at.
  rewrite filter_app, filter_cons_False by naive_solver.
  rewrite !filter_ne_notin by done. done.
Qed.

(** When [v] is not in the array, [indexOf] answers [-1] and the splice
    takes the last element instead. *)
Lemma splice_indexOf_notin l v :
  v ∉ l → splice l (indexOf l v) 1 = take (length l - 1) l.
Proof.
  intros Hv. unfold indexOf. rewrite indexOf_from_notin by done.
  apply splice_minus_one.
Qed.

Lemma splice_indexOf_sublist l v : splice l (indexOf l v) 1 `sublist_of` l.
Proof.
  destruct (decide (v ∈ l)) as [Hv|Hv].
  - apply list_elem_of_split_l in Hv as (l1 & l2 & -> & Hv1).
    unfold indexOf. rewrite indexOf_from_split by done. simpl.
    rewrite splice_one_at. apply sublist_app; [done|]. by apply sublist_cons.
  - rewrite splice_indexOf_notin by done. apply sublist_take.
Qed.

Lemma splice_indexOf_gone l v : NoDup l → v ∉ splice l (indexOf l v) 1.
Proof.
  intros Hnd. destruct (decide (v ∈ l)) as [Hv|Hv].
  - rewrite splice_indexOf_in by done. rewrite list_elem_of_filter.
    by intros [Hne _].
  - rewrite splice_indexOf_notin by done.
    intros Hin. apply Hv. eapply elem_of_sublist; [done|apply sublist_take].
Qed.

Lemma sublist_drop_mono l1 l2 k :
  l1 `sublist_of` l2 → drop k l1 `sublist_of` drop k l2.
Proof.
  intros Hs. revert k.
  induction Hs as [|x l1 l2 Hs IH|x l1 l2 Hs IH]; intros k.
  - by rewrite drop_nil.
  - destruct k as [|k]; simpl; [by constructor|apply IH].
  - destruct k as [|k]; simpl; [by constructor|].
    etrans; [apply IH|].
    replace (S k) with (k + 1) by lia.
    rewrite <-drop_drop. apply sublist_drop.
Qed.

Lemma forallb_elem_of (f : T → bool) l :
  forallb f l = true → ∀ x, x ∈ l → f x = true.
Proof.
  rewrite forallb_forall. intros Hf x Hx. by apply Hf, list_elem_of_In.
Qed.

Lemma elem_of_tail (x : T) l : x ∈ tail l → x ∈ l.
Proof. destruct l; simpl; [done|]. intros Hx. apply elem_of_cons. by right. Qed.
End ArrayFacts.

(** ** The field model and the integrator, in exact arithmetic *)

Section ExactPhysics.
Local Open Scope R_scope.
Implicit Types (c q : point R) (p : particle R).

Lemma sumsq_nonneg (a b : R) : 0 <= a * a + b * b.
Proof. nra. Qed.

Lemma dist_nonneg c q : 0 <= dist c q.
Proof. apply sqrt_pos. Qed.

Lemma dist_sqr c q :
  dist c q * dist c q
  = (pt_x q - pt_x c) * (pt_x q - pt_x c)
    + (pt_y q - pt_y c) * (pt_y q - pt_y c).
Proof. unfold dist. apply sqrt_sqrt, sumsq_nonneg. Qed.

Lemma dist_zero_iff c q : dist c q = 0 ↔ q = c.
Proof.
  unfold dist. split.
  - intros Hz. destruct q as [qx qy], c as [cx cy]; simpl in *.
    apply sqrt_eq_0 in Hz; [|apply sumsq_nonneg].
    destruct (Rplus_sqr_eq_0 (qx - cx) (qy - cy) Hz).
    f_equal; lra.
  - intros ->. replace (_ + _) with 0 by ring. apply sqrt_0.
Qed.

Lemma dist_pos c q : q ≠ c → 0 < dist c q.
Proof.
  intros Hne. destruct (dist_nonneg c q) as [Hlt | Heq]; [exact Hlt|].
  symmetry in Heq. by apply dist_zero_iff in Heq.
Qed.

(** The [r] that [acceleration] returns is the distance, on both
    branches. *)
Lemma acceleration_r c q : a_r (acceleration c q) = dist c q.
Proof.
  unfold acceleration, dist. exact_arith.
  case_bool_decide as Hr; simpl; [by rewrite Hr | done].
Qed.

Lemma acceleration_at_centre c : acceleration c c = Accel 0 0 0.
Proof.
  unfold acceleration. exact_arith.
  rewrite bool_decide_eq_true_2; [done|].
  apply (proj2 (dist_zero_iff c c)). done.
Qed.

(** Off the centre: magnitude [G*M/r^2] along the unit vector towards
    the centre. *)
Lemma acceleration_off_centre c q :
  q ≠ c →
  acceleration c q
  = Accel (G * M / (dist c q * dist c q) * ((pt_x c - pt_x q) / dist c q))
          (G * M / (dist c q * dist c q) * ((pt_y c - pt_y q) / dist c q))
          (dist c q).
Proof.
  intros Hne. pose proof (dist_pos c q Hne) as Hr.
  unfold acceleration. exact_arith. fold (dist c q).
  rewrite bool_decide_eq_false_2 by lra.
  unfold G, M. exact_arith. f_equal; field; lra.
Qed.

Lemma stepVerlet_position_exact c p h :
  stepVerlet_position c p h
  = (let a0 := acceleration c (pos p) in
     Particle (p_x p + p_vx p * h + 1 / 2 * a_ax a0 * h ^ 2)
              (p_y p + p_vy p * h + 1 / 2 * a_ay a0 * h ^ 2)
              (p_vx p) (p_vy p) (a_ax a0) (a_ay a0) (p_trace p)).
Proof.
  unfold stepVerlet_position, half, set_x, set_y, set_ax, set_ay.
  exact_arith. cbn. f_equal; lra.
Qed.

Lemma stepVerlet_exact c p h : stepVerlet c p h = velocity_verlet c p h.
Proof.
  unfold stepVerlet. rewrite stepVerlet_position_exact.
  unfold stepVerlet_velocity, velocity_verlet, half, pos,
    set_vx, set_vy, set_ax, set_ay.
  exact_arith. cbn. reflexivity.
Qed.

Lemma stepVerlet_r c p h :
  (stepVerlet c p h).2 = dist c (pos (stepVerlet c p h).1).
Proof.
  rewrite stepVerlet_exact. unfold velocity_verlet. cbn.
  apply acceleration_r.
Qed.

(** C1. [stepVerlet(p, dt)] is the velocity Verlet step: after its first
    half the particle holds [a0 = field(position)] as its acceleration and
    the position [position + velocity*dt + 0.5*a0*dt^2], the velocity
    still being the old one; the whole step equals [velocity_verlet], the
    five steps of the specification, so the velocity becomes
    [velocity + 0.5*(a0 + a1)*dt] with [a1] the field at the new position,
    [a1] is stored, and the value returned is the distance of the new
    position from the centre. *)
Theorem stepVerlet_is_velocity_verlet c p h :
  stepVerlet_position c p h
  = (let a0 := acceleration c (pos p) in
     Particle (p_x p + p_vx p * h + 1 / 2 * a_ax a0 * h ^ 2)
              (p_y p + p_vy p * h + 1 / 2 * a_ay a0 * h ^ 2)
              (p_vx p) (p_vy p) (a_ax a0) (a_ay a0) (p_trace p))
  ∧ stepVerlet c p h = velocity_verlet c p h
  ∧ (stepVerlet c p h).2 = dist c (pos (stepVerlet c p h).1).
Proof.
  split; [apply stepVerlet_position_exact|].
  split; [apply stepVerlet_exact|apply stepVerlet_r].
Qed.

(** C2. Off the centre, [acceleration(p)] has magnitude [G*M/r^2], with
    [r] the Euclidean distance from [p] to the centre; it is that
    magnitude times the unit vector [(center - p)/r], which points from
    [p] to the centre; and its third component is [r]. *)
Theorem acceleration_inverse_square c q :
  q ≠ c →
  let r := dist c q in
  let a := acceleration c q in
  0 < r
  ∧ a_r a = r
  ∧ sqrt (a_ax a * a_ax a + a_ay a * a_ay a) = G * M / (r * r)
  ∧ a_ax a = G * M / (r * r) * ((pt_x c - pt_x q) / r)
  ∧ a_ay a = G * M / (r * r) * ((pt_y c - pt_y q) / r)
  ∧ ((pt_x c - pt_x q) / r) * ((pt_x c - pt_x q) / r)
    + ((pt_y c - pt_y q) / r) * ((pt_y c - pt_y q) / r) = 1.
Proof.
  intros Hne r a. pose proof (dist_pos c q Hne) as Hr. fold r in Hr.
  pose proof (dist_sqr c q) as Hrr. fold r in Hrr.
  unfold a. rewrite (acceleration_off_centre c q Hne). fold r.
  cbn [a_ax a_ay a_r].
  assert (Hunit : ((pt_x c - pt_x q) / r) * ((pt_x c - pt_x q) / r)
    + ((pt_y c - pt_y q) / r) * ((pt_y c - pt_y q) / r) = 1).
  { field_simplify_eq; [|lra]. nra. }
  repeat split; try done.
  set (k := G * M / (r * r)).
  assert (Hk : 0 < k).
  { unfold k, G, M. exact_arith. apply Rdiv_lt_0_compat; nra. }
  replace (_ + _) with (k * k) by (fold k; nra).
  apply sqrt_square. lra.
Qed.

Lemma acceleration_inverse_square_witness :
  let c := Point 0 0 in
  let q := Point 3 4 in
  let r := dist c q in
  let a := acceleration c q in
  0 < r
  ∧ a_r a = r
  ∧ sqrt (a_ax a * a_ax a + a_ay a * a_ay a) = G * M / (r * r)
  ∧ a_ax a = G * M / (r * r) * ((pt_x c - pt_x q) / r)
  ∧ a_ay a = G * M / (r * r) * ((pt_y c - pt_y q) / r)
  ∧ ((pt_x c - pt_x q) / r) * ((pt_x c - pt_x q) / r)
    + ((pt_y c - pt_y q) / r) * ((pt_y c - pt_y q) / r) = 1.
Proof.
  apply (acceleration_inverse_square (Point 0 0) (Point 3 4)).
  intros [= H3 H4]. lra.
Defined.

(** *** The guard, with the divisions watched *)

Ltac checked_arith :=
  cbn [lit nadd nsub nmul ndiv nneg nsqrt nlt nseq checked_Num R_Num
       checked_map checked_map2 checked_test] in *.

(** With its guard, [acceleration] never divides by zero: evaluated with
    the divisions watched it returns the values of exact arithmetic. *)
Lemma acceleration_checked c q :
  acceleration (val_point c) (val_point q) = val_accel (acceleration c q).
Proof.
  unfold acceleration, val_point, val_accel, G, M.
  cbn [pt_x pt_y]. checked_arith. fold (dist c q).
  case_bool_decide as Hr; [reflexivity|].
  pose proof (dist_nonneg c q) as H0.
  assert (Hrr : dist c q * dist c q ≠ 0) by nra.
  unfold checked_div. rewrite !decide_False by done. reflexivity.
Qed.

Lemma stepVerlet_position_checked c p h :
  stepVerlet_position (val_point c) (val_particle p) (Val h)
  = val_particle (stepVerlet_position c p h).
Proof.
  unfold stepVerlet_position.
  change (pos (val_particle p)) with (val_point (pos p)).
  rewrite acceleration_checked.
  unfold half, val_particle, val_accel, set_x, set_y, set_ax, set_ay.
  cbn [p_x p_y p_vx p_vy p_ax p_ay p_trace a_ax a_ay].
  checked_arith. unfold checked_div.
  rewrite decide_False by lra. reflexivity.
Qed.

Lemma stepVerlet_velocity_checked c p h :
  stepVerlet_velocity (val_point c) (val_particle p) (Val h)
  = (val_particle (stepVerlet_velocity c p h).1,
     Val (stepVerlet_velocity c p h).2).
Proof.
  unfold stepVerlet_velocity.
  change (pos (val_particle p)) with (val_point (pos p)).
  rewrite acceleration_checked.
  unfold half, val_particle, val_accel, set_vx, set_vy, set_ax, set_ay.
  cbn [p_x p_y p_vx p_vy p_ax p_ay p_trace a_ax a_ay a_r fst snd].
  checked_arith. unfold checked_div.
  rewrite decide_False by lra. reflexivity.
Qed.

Lemma stepVerlet_checked c p h :
  stepVerlet (val_point c) (val_particle p) (Val h)
  = (val_particle (stepVerlet c p h).1, Val (stepVerlet c p h).2).
Proof.
  unfold stepVerlet.
  by rewrite stepVerlet_position_checked, stepVerlet_velocity_checked.
Qed.

(** The time step of the frame loop is a proper value too. *)
Lemma dt_checked : (dt : checked) = Val dt.
Proof.
  unfold dt. checked_arith. unfold checked_div.
  rewrite decide_False by lra. reflexivity.
Qed.

(** Without the guard the centre is a division by zero, and the watched
    arithmetic shows it. *)
Lemma guard_is_needed c :
  acceleration_without_guard (val_point c) (val_point c)
  = Accel DivByZero DivByZero (Val 0).
Proof.
  unfold acceleration_without_guard, val_point, G, M.
  cbn [pt_x pt_y]. checked_arith.
  assert (Hr : sqrt ((pt_x c - pt_x c) * (pt_x c - pt_x c)
                     + (pt_y c - pt_y c) * (pt_y c - pt_y c)) = 0).
  { apply (proj2 (dist_zero_iff c c)). done. }
  rewrite Hr. checked_arith. unfold checked_div.
  rewrite !decide_True by lra. reflexivity.
Qed.

(** C3. With the divisions watched: at the centre, where [r == 0],
    [acceleration] returns [(0, 0, 0)]; at every position it returns
    proper values, those of exact arithmetic, so none of its divisions is
    a division by zero; and so does every step of the integrator, which
    evaluates the field twice, in particular with the time step of the
    frame loop. *)
Theorem acceleration_guard c q p h :
  acceleration (val_point c) (val_point c) = Accel (Val 0) (Val 0) (Val 0)
  ∧ acceleration (val_point c) (val_point q) = val_accel (acceleration c q)
  ∧ stepVerlet (val_point c) (val_particle p) (Val h)
    = (val_particle (stepVerlet c p h).1, Val (stepVerlet c p h).2)
  ∧ stepVerlet (val_point c) (val_particle p) dt
    = (val_particle (stepVerlet c p dt).1, Val (stepVerlet c p dt).2).
Proof.
  split.
  { rewrite acceleration_checked, acceleration_at_centre. reflexivity. }
  split; [apply acceleration_checked|].
  split; [apply stepVerlet_checked|].
  rewrite dt_checked. apply stepVerlet_checked.
Qed.
End ExactPhysics.

(** ** The registry and the frame loop *)

Section RegistryFacts.
Context {A : Type} `{Num A}.
Implicit Types (st : sim A) (l t : loc) (p : particle A).

Lemma stepVerlet_trace (c : point A) p (h : A) :
  p_trace (stepVerlet c p h).1 = p_trace p.
Proof. done. Qed.

Lemma record_trace_subseteq t p x :
  x ∈ p_trace (record_trace t p) → x ∈ p_trace p ∨ x = t.
Proof.
  unfold record_trace, push, shift. simpl.
  destruct (1200 <? _)%nat; simpl; intros Hx.
  - apply elem_of_tail in Hx.
    apply elem_of_app in Hx. by rewrite list_elem_of_singleton in Hx.
  - apply elem_of_app in Hx. by rewrite list_elem_of_singleton in Hx.
Qed.

(** [advance] on a particle object, spelled out. *)
Lemma advance_particle l st p :
  heap st !! l = Some (OParticle p) →
  advance l st =
    (let p1 := (stepVerlet (center st) p dt).1 in
     let t := fresh (dom (heap st)) in
     with_heap (<[l := OParticle (record_trace t p1)]>
                  (<[t := OPoint (pos p1)]> (heap st))) st,
     (stepVerlet (center st) p dt).2).
Proof.
  intros Hl. unfold advance. rewrite Hl.
  by destruct (stepVerlet (center st) p dt) as [p1 r].
Qed.

Lemma advance_other l st :
  (∀ p, heap st !! l ≠ Some (OParticle p)) → advance l st = (st, lit 0).
Proof.
  intros Hl. unfold advance.
  destruct (heap st !! l) as [[p|q]|] eqn:E; try done. by destruct (Hl p).
Qed.

Lemma fresh_lookup st : heap st !! fresh (dom (heap st)) = None.
Proof. apply not_elem_of_dom, is_fresh. Qed.

Lemma advance_particles l st : particles (advance l st).1 = particles st.
Proof.
  unfold advance. by destruct (heap st !! l) as [[p|q]|].
Qed.

Lemma advance_globals l st :
  center (advance l st).1 = center st
  ∧ innerWidth (advance l st).1 = innerWidth st
  ∧ innerHeight (advance l st).1 = innerHeight st.
Proof.
  unfold advance. by destruct (heap st !! l) as [[p|q]|].
Qed.

(** The step writes the particle it is given and one new object; every
    other object is left as it was. *)
Lemma advance_lookup_ne l st l' :
  l' ≠ l → is_Some (heap st !! l') →
  heap (advance l st).1 !! l' = heap st !! l'.
Proof.
  intros Hne Hsome.
  destruct (heap st !! l) as [[p|q]|] eqn:E.
  - rewrite (advance_particle _ _ _ E). simpl.
    rewrite lookup_insert_ne by done.
    rewrite lookup_insert_ne; [done|].
    intros <-. rewrite fresh_lookup in Hsome. by destruct Hsome.
  - rewrite advance_other; [done|]. intros p; congruence.
  - rewrite advance_other; [done|]. intros p; congruence.
Qed.

Lemma advance_point l st t q :
  heap st !! t = Some (OPoint q) →
  heap (advance l st).1 !! t = Some (OPoint q).
Proof.
  intros Ht. destruct (decide (t = l)) as [->|Hne].
  - rewrite advance_other; [done|]. intros p; congruence.
  - rewrite advance_lookup_ne; done.
Qed.

Lemma advance_particle_kept l st l' p :
  heap st !! l' = Some (OParticle p) →
  ∃ p', heap (advance l st).1 !! l' = Some (OParticle p').
Proof.
  intros Hl'. destruct (decide (l' = l)) as [->|Hne].
  - rewrite (advance_particle _ _ _ Hl'). simpl.
    rewrite lookup_insert_eq. eauto.
  - rewrite advance_lookup_ne; eauto.
Qed.

Lemma wf_advance l st : wf st → wf (advance l st).1.
Proof.
  intros [Hnd Hreg Htr]. split.
  - by rewrite advance_particles.
  - intros l'. rewrite advance_particles. intros Hl'.
    destruct (Hreg l' Hl') as [p Hp]. by eapply advance_particle_kept.
  - intros l' p' t.
    destruct (heap st !! l) as [[p|q]|] eqn:E.
    2,3: rewrite advance_other by (intros ?; congruence); apply Htr.
    rewrite (advance_particle _ _ _ E). simpl.
    set (t0 := fresh (dom (heap st))).
    assert (Ht0 : heap st !! t0 = None) by apply fresh_lookup.
    assert (Hne0 : t0 ≠ l) by (intros ->; congruence).
    destruct (decide (l' = l)) as [->|Hne].
    + rewrite lookup_insert_eq. intros [= <-] Ht.
      apply record_trace_subseteq in Ht as [Ht| ->].
      * change (t ∈ p_trace p) in Ht.
        destruct (Htr _ _ _ E Ht) as [q Hq]. exists q.
        rewrite !lookup_insert_ne; [done|congruence..].
      * rewrite lookup_insert_ne by done. rewrite lookup_insert_eq. eauto.
    + rewrite lookup_insert_ne by done.
      destruct (decide (l' = t0)) as [->|Hne'].
      { rewrite lookup_insert_eq. done. }
      rewrite lookup_insert_ne by done. intros Hl' Ht.
      destruct (Htr _ _ _ Hl' Ht) as [q Hq]. exists q.
      rewrite !lookup_insert_ne; [done|congruence..].
Qed.

Lemma visit_unfold l st :
  visit l st =
    (let st1 := (advance l st).1 in
     let r := (advance l st).2 in
     let st2 := if swallowed r then remove_particle l st1 else st1 in
     let st3 := if offscreen l st2 then remove_particle l st2 else st2 in
     (st3, r)).
Proof. unfold visit. by destruct (advance l st). Qed.

Lemma visit_r l st : (visit l st).2 = (advance l st).2.
Proof. by rewrite visit_unfold. Qed.

Lemma visit_heap l st : heap (visit l st).1 = heap (advance l st).1.
Proof.
  rewrite visit_unfold. simpl.
  by repeat (case_match; simpl).
Qed.

Lemma visit_globals l st :
  center (visit l st).1 = center st
  ∧ innerWidth (visit l st).1 = innerWidth st
  ∧ innerHeight (visit l st).1 = innerHeight st.
Proof.
  rewrite visit_unfold. simpl.
  destruct (advance_globals l st) as (Hc & Hw & Hh).
  by repeat (case_match; simpl).
Qed.

Lemma offscreen_remove l l' st :
  offscreen l (remove_particle l' st) = offscreen l st.
Proof. done. Qed.

(** What a visit leaves of the registry. *)
Lemma visit_particles l st :
  NoDup (particles st) → l ∈ particles st →
  let gone := filter (λ x, x ≠ l) (particles st) in
  particles (visit l st).1 =
    match swallowed (visit l st).2, offscreen l (advance l st).1 with
    | false, false => particles st
    | true, false | false, true => gone
    | true, true => take (length gone - 1) gone
    end.
Proof.
  intros Hnd Hin gone. rewrite visit_unfold. cbn zeta. cbn [fst snd].
  destruct (swallowed (advance l st).2) eqn:Hsw.
  - rewrite offscreen_remove.
    assert (Hrm : particles (remove_particle l (advance l st).1) = gone).
    { unfold remove_particle. cbn. rewrite advance_particles.
      by apply splice_indexOf_in. }
    destruct (offscreen l (advance l st).1); [|done].
    change (particles (remove_particle l (remove_particle l (advance l st).1)))
      with (splice (particles (remove_particle l (advance l st).1))
              (indexOf (particles (remove_particle l (advance l st).1)) l) 1).
    rewrite Hrm. apply splice_indexOf_notin.
    unfold gone. rewrite list_elem_of_filter. by intros [? _].
  - destruct (offscreen l (advance l st).1).
    + unfold remove_particle. cbn. rewrite advance_particles.
      by apply splice_indexOf_in.
    + apply advance_particles.
Qed.

Lemma visit_sublist l st : particles (visit l st).1 `sublist_of` particles st.
Proof.
  rewrite visit_unfold. cbn zeta. cbn [fst snd].
  rewrite <-(advance_particles l st).
  set (st1 := (advance l st).1).
  assert (Hrm : ∀ s : sim A,
    particles (remove_particle l s) `sublist_of` particles s).
  { intros s. apply splice_indexOf_sublist. }
  destruct (swallowed _).
  - destruct (offscreen _ _); [|apply Hrm].
    etrans; apply Hrm.
  - destruct (offscreen _ _); [apply Hrm|done].
Qed.

Lemma visit_removed l st :
  NoDup (particles st) →
  swallowed (visit l st).2 = true ∨ offscreen l (advance l st).1 = true →
  l ∉ particles (visit l st).1.
Proof.
  intros Hnd Hor. rewrite visit_unfold in *. cbn zeta in *. cbn [fst snd] in *.
  set (st1 := (advance l st).1) in *.
  assert (Hnd1 : NoDup (particles st1))
    by (unfold st1; by rewrite advance_particles).
  assert (Hrm : ∀ s : sim A,
    NoDup (particles s) → l ∉ particles (remove_particle l s)).
  { intros s Hs. by apply splice_indexOf_gone. }
  assert (Hrmnd : ∀ s : sim A,
    NoDup (particles s) → NoDup (particles (remove_particle l s))).
  { intros s Hs. eapply sublist_NoDup; [done|apply splice_indexOf_sublist]. }
  destruct (swallowed _) eqn:Hsw.
  - rewrite offscreen_remove. destruct (offscreen l st1); auto.
  - destruct Hor as [?|Hoff]; [done|]. rewrite Hoff. auto.
Qed.

Lemma wf_sublist st k :
  wf st → k `sublist_of` particles st → wf (with_particles k st).
Proof.
  intros [Hnd Hreg Htr] Hk. split; simpl.
  - by eapply sublist_NoDup.
  - intros l Hl. apply Hreg. by eapply elem_of_sublist.
  - done.
Qed.

Lemma wf_visit l st : wf st → wf (visit l st).1.
Proof.
  intros Hwf. apply (wf_advance l) in Hwf.
  pose proof (visit_sublist l st) as Hs.
  rewrite <-(advance_particles l st) in Hs.
  pose proof (wf_sublist _ _ Hwf Hs) as Hwf'.
  destruct Hwf' as [Hnd Hreg Htr]. split.
  - done.
  - intros l'. rewrite visit_heap. apply Hreg.
  - intros l' p t. rewrite visit_heap. apply Htr.
Qed.

(** ** The loop *)

Lemma forOf_unfold fuel i st :
  forOf (S fuel) i st =
    match particles st !! i with
    | None => (st, [])
    | Some l =>
        ((forOf fuel (S i) (visit l st).1).1,
         (l, (visit l st).2) :: (forOf fuel (S i) (visit l st).1).2)
    end.
Proof.
  simpl. destruct (particles st !! i) as [l|]; [|done].
  destruct (visit l st) as [st1 r]. simpl.
  by destruct (forOf fuel (S i) st1).
Qed.

Lemma forOf_sublist fuel i st :
  particles (forOf fuel i st).1 `sublist_of` particles st.
Proof.
  revert i st. induction fuel as [|fuel IH]; intros i st; [done|].
  rewrite forOf_unfold. destruct (particles st !! i) as [l|]; [|done].
  simpl. etrans; [apply IH|apply visit_sublist].
Qed.

Lemma wf_forOf fuel i st : wf st → wf (forOf fuel i st).1.
Proof.
  revert i st. induction fuel as [|fuel IH]; intros i st Hwf; [done|].
  rewrite forOf_unfold. destruct (particles st !! i) as [l|]; [|done].
  simpl. by apply IH, wf_visit.
Qed.

(** Once the iterator has run off the end of the array, more turns
    change nothing: [length (particles st)] turns are enough. *)
Lemma forOf_fuel fuel fuel' i st :
  length (particles st) ≤ fuel + i → fuel ≤ fuel' →
  forOf fuel' i st = forOf fuel i st.
Proof.
  revert fuel' i st. induction fuel as [|fuel IH]; intros fuel' i st Hlen Hf.
  - destruct fuel' as [|fuel']; [done|]. rewrite forOf_unfold.
    rewrite lookup_ge_None_2 by (simpl in Hlen; lia). done.
  - destruct fuel' as [|fuel']; [lia|]. rewrite !forOf_unfold.
    destruct (particles st !! i) as [l|]; [|done].
    rewrite (IH fuel' (S i) (visit l st).1); [done| |lia].
    pose proof (sublist_length _ _ (visit_sublist l st)). lia.
Qed.

Lemma forOf_log_in fuel i st l r :
  (l, r) ∈ (forOf fuel i st).2 → l ∈ drop i (particles st).
Proof.
  revert i st. induction fuel as [|fuel IH]; intros i st.
  { simpl. by intros ?%elem_of_nil. }
  rewrite forOf_unfold. destruct (particles st !! i) as [l0|] eqn:Hi.
  2: { simpl. by intros ?%elem_of_nil. }
  simpl. intros [[= -> ->]|Hin]%elem_of_cons.
  - apply list_elem_of_lookup. exists 0. by rewrite lookup_drop, Nat.add_0_r.
  - apply IH in Hin.
    eapply elem_of_sublist in Hin;
      [|apply sublist_drop_mono, visit_sublist].
    replace (S i) with (i + 1) in Hin by lia.
    rewrite <-drop_drop in Hin.
    eapply elem_of_sublist; [done|apply sublist_drop].
Qed.

Lemma heap_ext_refl (h : gmap loc (obj A)) : heap_ext h h.
Proof. intros l. split; eauto. Qed.

Lemma heap_ext_trans (h1 h2 h3 : gmap loc (obj A)) :
  heap_ext h1 h2 → heap_ext h2 h3 → heap_ext h1 h3.
Proof.
  intros H12 H23 l. split.
  - intros q Hq. by apply H23, H12.
  - intros p Hp. destruct (proj2 (H12 l) p Hp) as [p' Hp'].
    by apply (H23 l) in Hp'.
Qed.

Lemma heap_ext_is_Some (h h' : gmap loc (obj A)) l :
  heap_ext h h' → is_Some (h !! l) → is_Some (h' !! l).
Proof.
  intros Hext [[p|q] Ho].
  - destruct (proj2 (Hext l) p Ho) as [p' ->]. eauto.
  - rewrite (proj1 (Hext l) q Ho). eauto.
Qed.

Lemma advance_ext l st : heap_ext (heap st) (heap (advance l st).1).
Proof.
  intros l'. split.
  - intros q. apply advance_point.
  - intros p. apply advance_particle_kept.
Qed.

Lemma visit_ext l st : heap_ext (heap st) (heap (visit l st).1).
Proof. rewrite visit_heap. apply advance_ext. Qed.

Lemma forOf_ext fuel i st : heap_ext (heap st) (heap (forOf fuel i st).1).
Proof.
  revert i st. induction fuel as [|fuel IH]; intros i st.
  { apply heap_ext_refl. }
  rewrite forOf_unfold. destruct (particles st !! i) as [l|].
  - simpl. eapply heap_ext_trans; [apply visit_ext|apply IH].
  - apply heap_ext_refl.
Qed.

Lemma forOf_globals fuel i st :
  center (forOf fuel i st).1 = center st
  ∧ innerWidth (forOf fuel i st).1 = innerWidth st
  ∧ innerHeight (forOf fuel i st).1 = innerHeight st.
Proof.
  revert i st. induction fuel as [|fuel IH]; intros i st; [done|].
  rewrite forOf_unfold. destruct (particles st !! i) as [l|]; [|done].
  simpl. destruct (IH (S i) (visit l st).1) as (-> & -> & ->).
  apply visit_globals.
Qed.

Lemma tick_run_forOf st :
  tick_run st = forOf (length (particles st)) 0 st.
Proof.
  unfold tick_run. destruct (particles st) as [|l k] eqn:E; [done|].
  done.
Qed.

Lemma tick_sublist st : particles (tick st) `sublist_of` particles st.
Proof. unfold tick. rewrite tick_run_forOf. apply forOf_sublist. Qed.

Lemma wf_tick st : wf st → wf (tick st).
Proof. unfold tick. rewrite tick_run_forOf. apply wf_forOf. Qed.

Lemma tick_ext st : heap_ext (heap st) (heap (tick st)).
Proof. unfold tick. rewrite tick_run_forOf. apply forOf_ext. Qed.

Lemma tick_log_in st l r : (l, r) ∈ tick_log st → l ∈ particles st.
Proof.
  unfold tick_log. rewrite tick_run_forOf. intros Hin.
  by apply forOf_log_in in Hin.
Qed.

Lemma wf_init (w h : A) : wf (init w h).
Proof.
  split; simpl.
  - constructor.
  - by intros l ?%elem_of_nil.
  - intros l p t. by rewrite lookup_empty.
Qed.

Lemma mouseup_ext x y st : heap_ext (heap st) (heap (mouseup x y st)).
Proof.
  unfold mouseup. destruct (dragging st); simpl; [|apply heap_ext_refl].
  destruct (dragStart st) as [start|]; simpl; [|apply heap_ext_refl].
  intros l.
  assert (Hne : ∀ o, heap st !! l = Some o → fresh (dom (heap st)) ≠ l).
  { intros o Ho <-. by rewrite fresh_lookup in Ho. }
  split.
  - intros q Hq. rewrite lookup_insert_ne by eauto. done.
  - intros p Hp. rewrite lookup_insert_ne by eauto. eauto.
Qed.

Lemma wf_mouseup x y st : wf st → wf (mouseup x y st).
Proof.
  intros Hwf. unfold mouseup. destruct (dragging st); simpl; [|done].
  destruct (dragStart st) as [start|]; simpl.
  2: { destruct Hwf; by split. }
  destruct Hwf as [Hnd Hreg Htr].
  set (l0 := fresh (dom (heap st))).
  assert (Hl0 : heap st !! l0 = None) by apply fresh_lookup.
  split; simpl.
  - unfold push. apply NoDup_app. split; [done|].
    split; [|apply NoDup_singleton].
    intros l Hl ->%list_elem_of_singleton.
    destruct (Hreg _ Hl) as [p Hp]. congruence.
  - unfold push. intros l [Hl| ->%list_elem_of_singleton]%elem_of_app.
    + destruct (Hreg _ Hl) as [p Hp]. exists p.
      rewrite lookup_insert_ne; [done|congruence].
    + rewrite lookup_insert_eq. eauto.
  - intros l p t. destruct (decide (l = l0)) as [->|Hne].
    + rewrite lookup_insert_eq. intros [= <-]. simpl. by intros ?%elem_of_nil.
    + rewrite lookup_insert_ne by done. intros Hp Ht.
      destruct (Htr _ _ _ Hp Ht) as [q Hq]. exists q.
      rewrite lookup_insert_ne; [done|congruence].
Qed.

Lemma wf_handle e st : wf st → wf (handle e st).
Proof.
  intros Hwf. destruct e; simpl; try (destruct Hwf; by split).
  - unfold mousemove. destruct (dragging st); [|done]. destruct Hwf; by split.
  - by apply wf_mouseup.
  - destruct Hwf as [Hnd Hreg Htr]. split; simpl; [constructor| |done].
    by intros l ?%elem_of_nil.
  - by apply wf_tick.
Qed.

Lemma handle_ext e st : heap_ext (heap st) (heap (handle e st)).
Proof.
  destruct e; simpl; try apply heap_ext_refl.
  - unfold mousemove. destruct (dragging st); apply heap_ext_refl.
  - apply mouseup_ext.
  - apply tick_ext.
Qed.

Lemma run_cons e es st : run (e :: es) st = run es (handle e st).
Proof. done. Qed.

Lemma wf_run es st : wf st → wf (run es st).
Proof.
  revert st. induction es as [|e es IH]; intros st Hwf; [done|].
  rewrite run_cons. by apply IH, wf_handle.
Qed.

Lemma run_ext es st : heap_ext (heap st) (heap (run es st)).
Proof.
  revert st. induction es as [|e es IH]; intros st.
  { apply heap_ext_refl. }
  rewrite run_cons. eapply heap_ext_trans; [apply handle_ext|apply IH].
Qed.

(** A particle that has left the registry stays out: the only handler
    that adds to the registry adds a new object. *)
Lemma handle_absent e st l :
  is_Some (heap st !! l) → l ∉ particles st → l ∉ particles (handle e st).
Proof.
  intros Hl Hout. destruct e; simpl; try done.
  - unfold mousemove. by destruct (dragging st).
  - unfold mouseup. destruct (dragging st); simpl; [|done].
    destruct (dragStart st) as [start|]; simpl; [|done].
    unfold push. rewrite not_elem_of_app. split; [done|].
    rewrite list_elem_of_singleton. intros ->.
    rewrite fresh_lookup in Hl. by destruct Hl.
  - by intros ?%elem_of_nil.
  - intros Hin. apply Hout. eapply elem_of_sublist; [done|apply tick_sublist].
Qed.

Lemma run_absent es st l :
  is_Some (heap st !! l) → l ∉ particles st → l ∉ particles (run es st).
Proof.
  revert st. induction es as [|e es IH]; intros st Hl Hout; [done|].
  rewrite run_cons. apply IH.
  - eapply heap_ext_is_Some; [apply handle_ext|done].
  - by apply handle_absent.
Qed.

Lemma forOf_swallowed fuel i st l r :
  wf st → (l, r) ∈ (forOf fuel i st).2 → swallowed r = true →
  l ∉ particles (forOf fuel i st).1.
Proof.
  revert i st. induction fuel as [|fuel IH]; intros i st Hwf.
  { simpl. by intros ?%elem_of_nil. }
  rewrite forOf_unfold. destruct (particles st !! i) as [l0|] eqn:Hi.
  2: { simpl. by intros ?%elem_of_nil. }
  simpl. intros [[= -> ->]|Hin]%elem_of_cons Hsw.
  - intros Hl. eapply elem_of_sublist in Hl; [|apply forOf_sublist].
    revert Hl. apply visit_removed; [apply Hwf|by left].
  - apply IH; [by apply wf_visit|done..].
Qed.



(** The [r] a visited particle got is the one [stepVerlet] returns on
    the object as it was when the tick began: visiting the particles
    before it did not touch it. *)
Lemma forOf_log_step fuel i st l r :
  wf st → (l, r) ∈ (forOf fuel i st).2 →
  ∃ p, heap st !! l = Some (OParticle p)
       ∧ r = (stepVerlet (center st) p dt).2.
Proof.
  revert i st. induction fuel as [|fuel IH]; intros i st Hwf.
  { simpl. by intros ?%elem_of_nil. }
  rewrite forOf_unfold. destruct (particles st !! i) as [l0|] eqn:Hi.
  2: { simpl. by intros ?%elem_of_nil. }
  simpl. intros [[= -> ->]|Hin]%elem_of_cons.
  - destruct (wf_registry _ Hwf l0) as [p Hp].
    { by eapply list_elem_of_lookup_2. }
    exists p. split; [done|].
    by rewrite visit_r, (advance_particle _ _ _ Hp).
  - pose proof Hin as Hdrop. apply forOf_log_in in Hdrop.
    eapply elem_of_sublist in Hdrop;
      [|apply sublist_drop_mono, visit_sublist].
    apply list_elem_of_lookup in Hdrop as [j Hj].
    rewrite lookup_drop in Hj.
    assert (Hne : l ≠ l0).
    { intros ->.
      pose proof (NoDup_lookup _ _ _ _ (wf_nodup _ Hwf) Hi Hj). lia. }
    assert (Hsome : is_Some (heap st !! l)).
    { destruct (wf_registry _ Hwf l) as [p ->]; [|eauto].
      by eapply list_elem_of_lookup_2. }
    destruct (IH _ _ (wf_visit l0 st Hwf) Hin) as (p & Hp & ->).
    rewrite visit_heap, advance_lookup_ne in Hp by done.
    destruct (visit_globals l0 st) as (-> & _). eauto.
Qed.

Lemma pos_record_trace t p : pos (record_trace t p) = pos p.
Proof. unfold record_trace. by destruct (1200 <? _)%nat. Qed.

Lemma tick_log_step st l r :
  wf st → (l, r) ∈ tick_log st →
  ∃ p, heap st !! l = Some (OParticle p)
       ∧ r = (stepVerlet (center st) p dt).2.
Proof.
  unfold tick_log. rewrite tick_run_forOf. apply forOf_log_step.
Qed.
(** No particle is visited twice in a tick. *)
Lemma forOf_log_NoDup fuel i st :
  wf st → NoDup (forOf fuel i st).2.*1.
Proof.
  revert i st. induction fuel as [|fuel IH]; intros i st Hwf.
  { constructor. }
  rewrite forOf_unfold. destruct (particles st !! i) as [l0|] eqn:Hi.
  2: { constructor. }
  cbn [snd fmap list_fmap fst]. apply NoDup_cons. split.
  - intros [[l r] [Heq Hin]]%list_elem_of_fmap. simpl in Heq. subst l.
    apply forOf_log_in in Hin.
    eapply elem_of_sublist in Hin;
      [|apply sublist_drop_mono, visit_sublist].
    apply list_elem_of_lookup in Hin as [j Hj].
    rewrite lookup_drop in Hj.
    pose proof (NoDup_lookup _ _ _ _ (wf_nodup _ Hwf) Hi Hj). lia.
  - apply IH. by apply wf_visit.
Qed.

Lemma tick_log_NoDup st : wf st → NoDup (tick_log st).*1.
Proof. unfold tick_log. rewrite tick_run_forOf. apply forOf_log_NoDup. Qed.

(** The trace is a queue of at most 1200 entries: the new entry goes to
    the back, and the front one leaves when there would be 1201. *)
Lemma record_trace_fifo t p :
  length (p_trace p) ≤ 1200 →
  p_trace (record_trace t p)
  = drop (length (p_trace p) + 1 - 1200) (p_trace p ++ [t]).
Proof.
  intros Hlen. unfold record_trace, push, shift. cbn [p_trace set_trace].
  destruct (1200 <? _)%nat eqn:E; cbn [p_trace set_trace].
  - apply Nat.ltb_lt in E. rewrite length_app in E. cbn [length] in E.
    replace (length (p_trace p) + 1 - 1200) with 1 by lia.
    by destruct (p_trace p ++ [t]).
  - apply Nat.ltb_ge in E. rewrite length_app in E. cbn [length] in E.
    by replace (length (p_trace p) + 1 - 1200) with 0 by lia.
Qed.

Lemma record_trace_length t p :
  length (p_trace p) ≤ 1200 →
  length (p_trace (record_trace t p)) = (length (p_trace p) + 1) `min` 1200.
Proof.
  intros Hlen. rewrite record_trace_fifo by done.
  rewrite length_drop, length_app. cbn [length]. lia.
Qed.

Lemma advance_trace_bounded l st :
  trace_bounded st → trace_bounded (advance l st).1.
Proof.
  intros Hb l' p'.
  destruct (heap st !! l) as [[p|q]|] eqn:E.
  2,3: rewrite advance_other by (intros ?; congruence); apply Hb.
  rewrite (advance_particle _ _ _ E). cbn [fst heap with_heap].
  destruct (decide (l' = l)) as [->|Hne].
  - rewrite lookup_insert_eq. intros [= <-].
    rewrite record_trace_length; [lia|]. apply (Hb _ _ E).
  - rewrite lookup_insert_ne by done.
    destruct (decide (l' = fresh (dom (heap st)))) as [->|Hne'].
    + by rewrite lookup_insert_eq.
    + rewrite lookup_insert_ne by done. apply Hb.
Qed.

Lemma forOf_trace_bounded fuel i st :
  trace_bounded st → trace_bounded (forOf fuel i st).1.
Proof.
  revert i st. induction fuel as [|fuel IH]; intros i st Hb; [done|].
  rewrite forOf_unfold. destruct (particles st !! i) as [l|]; [|done].
  cbn [fst]. apply IH. intros l' p'. rewrite visit_heap.
  by apply advance_trace_bounded.
Qed.

Lemma handle_trace_bounded e st :
  trace_bounded st → trace_bounded (handle e st).
Proof.
  intros Hb. destruct e; simpl; try done.
  - unfold mousemove. by destruct (dragging st).
  - unfold mouseup. destruct (dragging st); simpl; [|done].
    destruct (dragStart st) as [start|]; simpl; [|done].
    intros l p. simpl.
    destruct (decide (l = fresh (dom (heap st)))) as [->|Hne].
    + rewrite lookup_insert_eq. intros [= <-]. simpl. lia.
    + rewrite lookup_insert_ne by done. apply Hb.
  - unfold tick. rewrite tick_run_forOf. by apply forOf_trace_bounded.
Qed.

(** The trace never exceeds 1200 entries, whatever happens. *)
Lemma run_trace_bounded es (w h : A) : trace_bounded (run es (init w h)).
Proof.
  assert (Hgen : ∀ st, trace_bounded st → trace_bounded (run es st)).
  { induction es as [|e es IH]; intros st Hb; [done|].
    rewrite run_cons. by apply IH, handle_trace_bounded. }
  apply Hgen. intros l p. simpl. by rewrite lookup_empty.
Qed.

(** C7. A particle that a tick steps to a distance [r] below the swallow
    radius is out of the registry once that tick is over, is not handed
    to [drawParticle] in that frame, and stays out whatever events follow:
    it is in no later registry, no later tick visits it, and no later
    frame draws it. *)
Theorem swallowed_never_returns st l r :
  wf st → (l, r) ∈ tick_log st → swallowed r = true →
  (l ∉ particles (tick st))
  ∧ (l ∉ (animate st).2)
  ∧ ∀ es, let st' := run es (tick st) in
      (l ∉ particles st')
      ∧ (l ∉ (tick_log st').*1)
      ∧ (l ∉ (animate st').2).
Proof.
  intros Hwf Hlog Hsw.
  assert (Hout : l ∉ particles (tick st)).
  { unfold tick, tick_log in *. rewrite tick_run_forOf in *.
    by eapply forOf_swallowed. }
  assert (Hl : is_Some (heap (tick st) !! l)).
  { eapply heap_ext_is_Some; [apply tick_ext|].
    destruct (wf_registry _ Hwf l) as [p ->]; [|eauto].
    by eapply tick_log_in. }
  split; [done|]. split; [done|].
  intros es st'.
  assert (Hout' : l ∉ particles st') by by apply run_absent.
  split; [done|]. split.
  - intros [[l' r'] [-> Hin]]%list_elem_of_fmap.
    apply tick_log_in in Hin. done.
  - simpl. intros Hin. apply Hout'.
    eapply elem_of_sublist; [done|apply tick_sublist].
Qed.

(** C9. [resetParticle] leaves an empty registry, whatever the registry
    held, and a tick on the result does nothing: it visits no particle
    and returns the state unchanged, and the frame draws no particle. *)
Theorem reset_empties st :
  particles (resetParticle st) = []
  ∧ tick_log (resetParticle st) = []
  ∧ tick (resetParticle st) = resetParticle st
  ∧ animate (resetParticle st) = (resetParticle st, []).
Proof. done. Qed.

(** C10. The entry a step appends to the trace is a new object, distinct
    from every object there was, holding the position the particle has
    right after the step; and every entry already in a trace is an object
    of its own whose content no later event changes, steps of the
    particle included. *)
Theorem trace_entries_are_copies st l p :
  wf st → heap st !! l = Some (OParticle p) →
  (∃ p' t,
      heap (advance l st).1 !! l = Some (OParticle p')
      ∧ pos p' = pos (stepVerlet (center st) p dt).1
      ∧ last (p_trace p') = Some t
      ∧ heap st !! t = None
      ∧ heap (advance l st).1 !! t = Some (OPoint (pos p')))
  ∧ (∀ t, t ∈ p_trace p →
      ∃ q, heap st !! t = Some (OPoint q)
           ∧ ∀ es, heap (run es st) !! t = Some (OPoint q)).
Proof.
  intros Hwf Hl. split.
  - rewrite (advance_particle _ _ _ Hl). cbn zeta.
    cbn [fst snd heap with_heap].
    set (p1 := (stepVerlet (center st) p dt).1).
    set (t := fresh (dom (heap st))).
    assert (Ht : heap st !! t = None) by apply fresh_lookup.
    exists (record_trace t p1), t.
    rewrite lookup_insert_eq.
    split; [done|]. split; [apply pos_record_trace|]. split.
    { unfold record_trace, push, shift. cbn [p_trace set_trace].
      destruct (1200 <? _)%nat eqn:E; cbn [p_trace set_trace].
      - apply Nat.ltb_lt in E. rewrite length_app in E.
        destruct (p_trace p1) as [|a k]; [cbn [length] in E; lia|].
        cbn [app tail]. by rewrite last_snoc.
      - by rewrite last_snoc. }
    split; [done|].
    rewrite lookup_insert_ne by (intros ->; congruence).
    rewrite lookup_insert_eq. by rewrite pos_record_trace.
  - intros t Ht. destruct (wf_trace _ Hwf _ _ _ Hl Ht) as [q Hq].
    exists q. split; [done|]. intros es.
    by apply (run_ext es st).
Qed.
End RegistryFacts.

(** ** The frame loop in closed form *)

Section LoopSummaryFacts.
Context {A : Type} `{Num A}.
Implicit Types (st : sim A) (l t : loc) (p : particle A) (d : loc → bool).

Lemma list_pair_ind {T} (P : list T → Prop) :
  P [] → (∀ x, P [x]) →
  (∀ x y ls, P ls → P (y :: ls) → P (x :: y :: ls)) →
  ∀ ls, P ls.
Proof.
  intros Hnil Hone Hstep ls.
  cut (P ls ∧ ∀ x, P (x :: ls)); [by intros [? _]|].
  induction ls as [|y ls [IH1 IH2]]; split; auto.
Qed.

Lemma survivors_ext d d' ls :
  (∀ l, l ∈ ls → d l = d' l) → survivors d ls = survivors d' ls.
Proof.
  induction ls as [|l|l l' rest IH1 IH2] using list_pair_ind; intros Hd.
  - done.
  - simpl. by rewrite <-(Hd l) by apply list_elem_of_here.
  - cbn [survivors]. rewrite <-(Hd l) by apply list_elem_of_here.
    destruct (d l).
    + f_equal. apply IH1. intros x Hx. apply Hd.
      by do 2 apply list_elem_of_further.
    + f_equal. apply IH2. intros x Hx. apply Hd.
      by apply list_elem_of_further.
Qed.

Lemma visited_ext d d' ls :
  (∀ l, l ∈ ls → d l = d' l) → visited d ls = visited d' ls.
Proof.
  induction ls as [|l|l l' rest IH1 IH2] using list_pair_ind; intros Hd.
  - done.
  - simpl. by rewrite <-(Hd l) by apply list_elem_of_here.
  - cbn [visited]. rewrite <-(Hd l) by apply list_elem_of_here.
    f_equal. destruct (d l).
    + apply IH1. intros x Hx. apply Hd.
      by do 2 apply list_elem_of_further.
    + apply IH2. intros x Hx. apply Hd.
      by apply list_elem_of_further.
Qed.

(** The tests of a visit depend on the particle's own object and on the
    window only. *)
Lemma advance_r_lookup l st :
  (advance l st).2
  = match heap st !! l with
    | Some (OParticle p) => (stepVerlet (center st) p dt).2
    | _ => lit 0
    end.
Proof. unfold advance. by destruct (heap st !! l) as [[p|q]|]. Qed.

Lemma offscreen_advance_lookup l st :
  offscreen l (advance l st).1
  = match heap st !! l with
    | Some (OParticle p) =>
        let q := pos (stepVerlet (center st) p dt).1 in
        (nlt (pt_x q) (nneg (lit 2000))
         || nlt (nadd (innerWidth st) (lit 2000)) (pt_x q)
         || nlt (pt_y q) (nneg (lit 2000))
         || nlt (nadd (innerHeight st) (lit 2000)) (pt_y q))
    | _ => offscreen l st
    end.
Proof.
  destruct (heap st !! l) as [[p|q]|] eqn:E.
  - rewrite (advance_particle _ _ _ E). unfold offscreen. cbn [fst heap with_heap].
    rewrite lookup_insert_eq. cbn [obj_xy innerWidth innerHeight with_heap].
    fold (pos (record_trace (fresh (dom (heap st))) (stepVerlet (center st) p dt).1)).
    by rewrite pos_record_trace.
  - rewrite advance_other; [done|]. intros p; congruence.
  - rewrite advance_other; [done|]. intros p; congruence.
Qed.

Lemma tests_frame st st' l :
  heap st' !! l = heap st !! l → center st' = center st →
  innerWidth st' = innerWidth st → innerHeight st' = innerHeight st →
  doomed st' l = doomed st l ∧ both_tests st' l = both_tests st l.
Proof.
  intros Hh Hc Hw Hht. unfold doomed, both_tests.
  rewrite !advance_r_lookup, !offscreen_advance_lookup.
  unfold offscreen. rewrite Hh, Hc, Hw, Hht. done.
Qed.

Lemma tests_visit st l0 l :
  l ≠ l0 → is_Some (heap st !! l) →
  doomed (visit l0 st).1 l = doomed st l
  ∧ both_tests (visit l0 st).1 l = both_tests st l.
Proof.
  intros Hne Hl. destruct (visit_globals l0 st) as (Hc & Hw & Hh).
  apply tests_frame; try done.
  rewrite visit_heap. by apply advance_lookup_ne.
Qed.
End LoopSummaryFacts.

Section LoopSummaryInduction.
Context {A : Type} `{Num A}.
Implicit Types (st : sim A) (l t : loc) (p : particle A) (d : loc → bool).

Lemma doomed_visit st l :
  doomed st l = swallowed (visit l st).2 || offscreen l (advance l st).1.
Proof. unfold doomed. by rewrite visit_r. Qed.

Lemma forOf_summary fuel i st :
  wf st →
  (∀ l, l ∈ drop i (particles st) → both_tests st l = false) →
  length (particles st) ≤ fuel + i →
  particles (forOf fuel i st).1
    = take i (particles st) ++ survivors (doomed st) (drop i (particles st))
  ∧ (forOf fuel i st).2.*1 = visited (doomed st) (drop i (particles st)).
Proof.
  revert i st. induction fuel as [|fuel IH]; intros i st Hwf Hboth Hlen.
  { simpl. rewrite drop_ge by lia. rewrite take_ge by lia.
    by rewrite app_nil_r. }
  rewrite forOf_unfold. destruct (particles st !! i) as [l0|] eqn:Hi.
  2: { apply lookup_ge_None in Hi. simpl.
       rewrite drop_ge by lia. rewrite take_ge by lia.
       by rewrite app_nil_r. }
  cbn [fst snd fmap list_fmap].
  set (L := particles st) in *. set (R := drop (S i) L).
  assert (Hdrop : drop i L = l0 :: R) by by apply drop_S.
  assert (HL : L = take i L ++ l0 :: R) by (symmetry; by apply take_drop_middle).
  assert (Hnd : NoDup L) by apply Hwf.
  assert (Hi' : i < length L) by by eapply lookup_lt_Some.
  assert (Htake : length (take i L) = i) by (rewrite length_take; lia).
  assert (HndL := Hnd). rewrite HL in HndL.
  apply NoDup_app in HndL as (_ & Hdisj & HndR).
  apply NoDup_cons in HndR as [Hl0R _].
  assert (Hl0T : l0 ∉ take i L).
  { intros Hin. apply (Hdisj _ Hin). apply list_elem_of_here. }
  assert (Hin0 : l0 ∈ L) by by eapply list_elem_of_lookup_2.
  assert (HR : ∀ l, l ∈ R → l ≠ l0 ∧ is_Some (heap st !! l)
                           ∧ l ∈ drop i L).
  { intros l Hl. split; [by intros ->|]. split.
    - destruct (wf_registry _ Hwf l) as [p ->]; [|eauto].
      eapply elem_of_sublist; [exact Hl|apply sublist_drop].
    - rewrite Hdrop. by apply list_elem_of_further. }
  assert (Hgone : filter (λ x, x ≠ l0) L = take i L ++ R).
  { rewrite HL at 1. rewrite filter_app, filter_cons_False by (intros Hx; by apply Hx).
    by rewrite !filter_ne_notin. }
  pose proof (visit_particles l0 st Hnd Hin0) as Hvp. cbn zeta in Hvp.
  fold L in Hvp. rewrite Hgone in Hvp.
  pose proof (Hboth l0) as Hb0. rewrite Hdrop in Hb0.
  specialize (Hb0 (list_elem_of_here _ _)).
  unfold both_tests in Hb0. rewrite <-visit_r in Hb0.
  rewrite Hdrop. cbn [survivors visited].
  rewrite (doomed_visit st l0).
  pose proof (wf_visit l0 st Hwf) as Hwf1.
  assert (Hrem : particles (visit l0 st).1 = take i L ++ R →
    particles (forOf fuel (S i) (visit l0 st).1).1
    = take i L ++ match R with
                  | [] => []
                  | l' :: rest' => l' :: survivors (doomed st) rest'
                  end
    ∧ l0 :: (forOf fuel (S i) (visit l0 st).1).2.*1
      = l0 :: match R with
              | [] => []
              | _ :: rest' => visited (doomed st) rest'
              end).
  { (* removed: the rest shifts down by one *)
    intros Hvp'.
    assert (Hd1 : drop (S i) (particles (visit l0 st).1) = drop 1 R).
    { rewrite Hvp', drop_app, drop_ge by lia.
      rewrite Htake. by replace (S i - i) with 1 by lia. }
    assert (Ht1 : take (S i) (particles (visit l0 st).1)
                  = take i L ++ take 1 R).
    { rewrite Hvp', take_app, take_ge by lia.
      rewrite Htake. by replace (S i - i) with 1 by lia. }
    assert (Hb1 : ∀ l, l ∈ drop (S i) (particles (visit l0 st).1) →
                       both_tests (visit l0 st).1 l = false).
    { rewrite Hd1. intros l Hl.
      assert (l ∈ R) by (eapply elem_of_sublist; [done|apply sublist_drop]).
      destruct (HR l) as (? & ? & ?); [done|].
      destruct (tests_visit st l0 l) as [_ ->]; auto. }
    assert (Hlen1 : length (particles (visit l0 st).1) ≤ fuel + S i).
    { rewrite Hvp', length_app, Htake.
      assert (length L = i + S (length R))
        by (rewrite HL at 1; rewrite length_app, Htake; simpl; lia).
      lia. }
    destruct (IH (S i) (visit l0 st).1 Hwf1 Hb1 Hlen1) as [IHp IHl].
    rewrite IHp, IHl, Hd1, Ht1.
    destruct R as [|l' R'] eqn:ER.
    { by rewrite !app_nil_r. }
    cbn [take drop]. rewrite take_0, drop_0.
    rewrite <-app_assoc. cbn [app].
    assert (Hsame : ∀ x, x ∈ R' →
              doomed (visit l0 st).1 x = doomed st x).
    { intros x Hx. destruct (HR x) as (? & ? & ?);
        [by apply list_elem_of_further|].
      by destruct (tests_visit st l0 x) as [-> _]. }
    by rewrite (survivors_ext _ _ _ Hsame), (visited_ext _ _ _ Hsame). }
  destruct (swallowed (visit l0 st).2) eqn:Hsw;
    destruct (offscreen l0 (advance l0 st).1) eqn:Hoff;
    try discriminate Hb0; cbn [orb].
  1,2: by apply Hrem.
  (* kept *)
  assert (Hb1 : ∀ l, l ∈ drop (S i) (particles (visit l0 st).1) →
                     both_tests (visit l0 st).1 l = false).
  { rewrite Hvp. fold R. intros l Hl. destruct (HR l) as (? & ? & ?); [done|].
    destruct (tests_visit st l0 l) as [_ ->]; auto. }
  assert (Hlen1 : length (particles (visit l0 st).1) ≤ fuel + S i)
    by (rewrite Hvp; lia).
  destruct (IH (S i) (visit l0 st).1 Hwf1 Hb1 Hlen1) as [IHp IHl].
  rewrite IHp, IHl, Hvp. fold R.
  rewrite (take_S_r _ _ _ Hi), <-app_assoc. cbn [app].
  assert (Hsame : ∀ x, x ∈ R → doomed (visit l0 st).1 x = doomed st x).
  { intros x Hx. destruct (HR x) as (? & ? & ?); [done|].
    by destruct (tests_visit st l0 x) as [-> _]. }
  by rewrite (survivors_ext _ _ _ Hsame), (visited_ext _ _ _ Hsame).
Qed.
End LoopSummaryInduction.

Section SummaryLists.
Implicit Types (l : loc) (d : loc → bool) (ls : list loc).

Lemma survivors_removed d x y ls :
  d x = true → survivors d (x :: y :: ls) = y :: survivors d ls.
Proof. intros E. simpl. by rewrite E. Qed.

Lemma survivors_kept d x ls :
  d x = false → survivors d (x :: ls) = x :: survivors d ls.
Proof. intros E. simpl. by rewrite E. Qed.

Lemma visited_removed d x y ls :
  d x = true → visited d (x :: y :: ls) = x :: visited d ls.
Proof. intros E. simpl. by rewrite E. Qed.

Lemma visited_kept d x ls :
  d x = false → visited d (x :: ls) = x :: visited d ls.
Proof. intros E. simpl. by rewrite E. Qed.

Lemma survivors_sublist d ls : survivors d ls `sublist_of` ls.
Proof.
  induction ls as [|x|x y ls IH1 IH2] using list_pair_ind.
  - done.
  - simpl. destruct (d x); [apply sublist_nil_l|done].
  - destruct (d x) eqn:E.
    + rewrite survivors_removed by done.
      apply sublist_cons. by apply sublist_skip.
    + rewrite survivors_kept by done. by apply sublist_skip.
Qed.

Lemma visited_sublist d ls : visited d ls `sublist_of` ls.
Proof.
  induction ls as [|x|x y ls IH1 IH2] using list_pair_ind.
  - done.
  - simpl. destruct (d x); done.
  - destruct (d x) eqn:E.
    + rewrite visited_removed by done.
      apply sublist_skip. by apply sublist_cons.
    + rewrite visited_kept by done. by apply sublist_skip.
Qed.

Lemma survivors_quiet d ls :
  (∀ l, l ∈ ls → d l = false) → survivors d ls = ls ∧ visited d ls = ls.
Proof.
  induction ls as [|x ls IH]; intros Hd; [done|].
  rewrite survivors_kept, visited_kept by apply Hd, list_elem_of_here.
  destruct IH as [-> ->]; [|done].
  intros l Hl. apply Hd. by apply list_elem_of_further.
Qed.

(** Whoever is missing afterwards was visited and had a test hold. *)
Lemma survivors_missing d ls l :
  l ∈ ls → l ∉ survivors d ls → d l = true ∧ l ∈ visited d ls.
Proof.
  induction ls as [|x|x y ls IH1 IH2] using list_pair_ind.
  - by intros ?%elem_of_nil.
  - intros Hl%list_elem_of_singleton. subst x. simpl.
    destruct (d l) eqn:E.
    + intros _. split; [done|apply list_elem_of_here].
    + intros Hn. destruct Hn. apply list_elem_of_here.
  - intros Hl. destruct (d x) eqn:E.
    + rewrite survivors_removed, visited_removed by done.
      intros Hn. apply not_elem_of_cons in Hn as [Hy Hn].
      apply elem_of_cons in Hl as [Hl|Hl].
      { subst x. split; [done|apply list_elem_of_here]. }
      apply elem_of_cons in Hl as [Hl|Hl]; [by subst y|].
      destruct (IH1 Hl Hn). split; [done|]. by apply list_elem_of_further.
    + rewrite survivors_kept, visited_kept by done.
      intros Hn. apply not_elem_of_cons in Hn as [Hx Hn].
      apply elem_of_cons in Hl as [Hl|Hl]; [by subst x|].
      destruct (IH2 Hl Hn). split; [done|]. by apply list_elem_of_further.
Qed.

(** Whoever was visited with a test holding is missing afterwards. *)
Lemma visited_doomed_gone d ls l :
  NoDup ls → l ∈ visited d ls → d l = true → l ∉ survivors d ls.
Proof.
  induction ls as [|x|x y ls IH1 IH2] using list_pair_ind.
  - by intros _ ?%elem_of_nil.
  - intros _. simpl. destruct (d x) eqn:E.
    + intros _ _. apply not_elem_of_nil.
    + intros Hl%list_elem_of_singleton. subst x. congruence.
  - intros Hnd. apply NoDup_cons in Hnd as [Hx Hnd].
    pose proof Hnd as Hnd'. apply NoDup_cons in Hnd' as [Hy Hnd'].
    destruct (d x) eqn:E.
    + rewrite survivors_removed, visited_removed by done.
      intros [Hl|Hl]%elem_of_cons Hd.
      * subst x. intros Hin. apply Hx.
        eapply elem_of_sublist; [exact Hin|].
        apply sublist_skip, survivors_sublist.
      * apply not_elem_of_cons. split.
        -- intros Heq. subst y. apply Hy.
           eapply elem_of_sublist; [exact Hl|apply visited_sublist].
        -- by apply IH1.
    + rewrite survivors_kept, visited_kept by done.
      intros [Hl|Hl]%elem_of_cons Hd; [subst x; congruence|].
      apply not_elem_of_cons. split.
      * intros Heq. subst x. apply Hx.
        eapply elem_of_sublist; [exact Hl|apply visited_sublist].
      * by apply IH2.
Qed.
End SummaryLists.

Section TickSummary.
Context {A : Type} `{Num A}.
Implicit Types (st : sim A) (l t : loc) (p : particle A).

Lemma forOf_doomed_gone fuel i st l :
  wf st → l ∈ (forOf fuel i st).2.*1 → doomed st l = true →
  l ∉ particles (forOf fuel i st).1.
Proof.
  revert i st. induction fuel as [|fuel IH]; intros i st Hwf.
  { simpl. by intros ?%elem_of_nil. }
  rewrite forOf_unfold. destruct (particles st !! i) as [l0|] eqn:Hi.
  2: { simpl. by intros ?%elem_of_nil. }
  cbn [fst snd fmap list_fmap]. intros [->|Hin]%elem_of_cons Hd.
  - intros Hl. eapply elem_of_sublist in Hl; [|apply forOf_sublist].
    revert Hl. apply visit_removed; [apply Hwf|].
    rewrite doomed_visit in Hd. by apply orb_true_iff in Hd.
  - pose proof Hin as Hdrop.
    apply list_elem_of_fmap in Hdrop as [[l' r] [Heq Hdrop]].
    simpl in Heq. subst l'. apply forOf_log_in in Hdrop.
    eapply elem_of_sublist in Hdrop;
      [|apply sublist_drop_mono, visit_sublist].
    apply list_elem_of_lookup in Hdrop as [j Hj].
    rewrite lookup_drop in Hj.
    assert (Hne : l ≠ l0).
    { intros ->.
      pose proof (NoDup_lookup _ _ _ _ (wf_nodup _ Hwf) Hi Hj). lia. }
    assert (Hsome : is_Some (heap st !! l)).
    { destruct (wf_registry _ Hwf l) as [p ->]; [|eauto].
      by eapply list_elem_of_lookup_2. }
    apply IH; [by apply wf_visit|done|].
    by destruct (tests_visit st l0 l Hne Hsome) as [-> _].
Qed.

Lemma forOf_unvisited fuel i st l :
  is_Some (heap st !! l) → l ∉ (forOf fuel i st).2.*1 →
  heap (forOf fuel i st).1 !! l = heap st !! l.
Proof.
  revert i st. induction fuel as [|fuel IH]; intros i st Hl; [done|].
  rewrite forOf_unfold. destruct (particles st !! i) as [l0|]; [|done].
  cbn [fst snd fmap list_fmap]. intros [Hne Hout]%not_elem_of_cons.
  assert (Hsame : heap (visit l0 st).1 !! l = heap st !! l).
  { rewrite visit_heap. by apply advance_lookup_ne. }
  rewrite IH; [done| |done]. by rewrite Hsame.
Qed.

Lemma forOf_log_length fuel i st :
  length (forOf fuel i st).2 ≤ length (particles st) - i.
Proof.
  revert i st. induction fuel as [|fuel IH]; intros i st; [simpl; lia|].
  rewrite forOf_unfold. destruct (particles st !! i) as [l0|] eqn:Hi.
  2: { simpl. lia. }
  cbn [snd length]. apply lookup_lt_Some in Hi.
  pose proof (IH (S i) (visit l0 st).1).
  pose proof (sublist_length _ _ (visit_sublist l0 st)). lia.
Qed.

Lemma tick_run_summary st :
  wf st →
  forallb (λ l, negb (both_tests st l)) (particles st) = true →
  particles (tick st) = survivors (doomed st) (particles st)
  ∧ (tick_log st).*1 = visited (doomed st) (particles st).
Proof.
  intros Hwf Hb. unfold tick, tick_log. rewrite tick_run_forOf.
  destruct (forOf_summary (length (particles st)) 0 st Hwf) as [Hp Hl].
  - intros l Hl. rewrite drop_0 in Hl.
    rewrite forallb_forall in Hb. apply list_elem_of_In in Hl.
    apply Hb in Hl. by apply negb_true_iff in Hl.
  - lia.
  - by rewrite drop_0, take_0 in *.
Qed.

(** X1. One tick in closed form.  In a well-formed state in which no
    particle has both removal tests hold, the registry after the tick is
    [survivors] of the registry before, and the particles the loop stepped
    are [visited], in that order: after a visit that removed its particle
    the loop passes over the element that slid into the vacated slot. *)
Theorem tick_summary st :
  wf st →
  forallb (λ l, negb (both_tests st l)) (particles st) = true →
  particles (tick st) = survivors (doomed st) (particles st)
  ∧ (tick_log st).*1 = visited (doomed st) (particles st).
Proof. apply tick_run_summary. Qed.

(** X3. If the step of no particle trips a removal test, the tick
    steps every particle of the registry, in order, and leaves the
    registry as it was. *)
Theorem tick_without_removal st :
  wf st → (∀ l, l ∈ particles st → doomed st l = false) →
  (tick_log st).*1 = particles st ∧ particles (tick st) = particles st.
Proof.
  intros Hwf Hd.
  destruct (tick_run_summary st Hwf) as [Hp Hl].
  - apply forallb_forall. intros l Hl%list_elem_of_In.
    apply Hd in Hl. unfold doomed in Hl. unfold both_tests.
    apply orb_false_iff in Hl as [-> ->]. done.
  - destruct (survivors_quiet (doomed st) (particles st) Hd) as [Hs Hv].
    by rewrite Hp, Hl, Hs, Hv.
Qed.
End TickSummary.

(** ** More on the registry *)

Section MoreRegistryFacts.
Context {A : Type} `{Num A}.
Implicit Types (st : sim A) (l t : loc) (p : particle A).

(** X4. A particle the tick steps to a position beyond the 2000-pixel
    margin is out of the registry after the tick, and whatever events
    follow it never is in the registry again nor stepped again. *)
Theorem escaped_never_returns st l :
  wf st → l ∈ (tick_log st).*1 → offscreen l (advance l st).1 = true →
  (l ∉ particles (tick st))
  ∧ ∀ es, let st' := run es (tick st) in
      (l ∉ particles st') ∧ (l ∉ (tick_log st').*1).
Proof.
  intros Hwf Hlog Hoff.
  assert (Hin : l ∈ particles st).
  { apply list_elem_of_fmap in Hlog as [[l' r] [-> Hlog]].
    by eapply tick_log_in. }
  assert (Hout : l ∉ particles (tick st)).
  { unfold tick, tick_log in *. rewrite tick_run_forOf in *.
    apply forOf_doomed_gone; [done..|].
    unfold doomed. rewrite Hoff. apply orb_true_r. }
  assert (Hl : is_Some (heap (tick st) !! l)).
  { eapply heap_ext_is_Some; [apply tick_ext|].
    destruct (wf_registry _ Hwf l Hin) as [p ->]. eauto. }
  split; [done|]. intros es st'.
  assert (Hout' : l ∉ particles st') by by apply run_absent.
  split; [done|].
  intros [[l' r'] [-> Hin']]%list_elem_of_fmap.
  apply tick_log_in in Hin'. done.
Qed.

(** X9. What the loop does not visit it does not touch: an object
    that is not stepped in the tick is after the tick what it was
    before. *)
Theorem tick_leaves_unvisited st l :
  is_Some (heap st !! l) → l ∉ (tick_log st).*1 →
  heap (tick st) !! l = heap st !! l.
Proof.
  unfold tick, tick_log. rewrite tick_run_forOf. apply forOf_unvisited.
Qed.

(** X6. The loop ends within as many turns as the registry is long at
    its start (more fuel changes nothing), and steps at most that many
    particles. *)
Theorem tick_terminates st n :
  forOf (length (particles st) + n) 0 st = tick_run st
  ∧ length (tick_log st) ≤ length (particles st).
Proof.
  split.
  - rewrite tick_run_forOf. apply forOf_fuel; lia.
  - unfold tick_log. rewrite tick_run_forOf.
    pose proof (forOf_log_length (length (particles st)) 0 st). lia.
Qed.

(** X7. A tick only ever takes particles out: the registry after it
    is a subsequence of the registry before; and it leaves the centre and
    the window size alone. *)
Theorem tick_only_removes st :
  particles (tick st) `sublist_of` particles st
  ∧ center (tick st) = center st
  ∧ innerWidth (tick st) = innerWidth st
  ∧ innerHeight (tick st) = innerHeight st.
Proof.
  split; [apply tick_sublist|].
  unfold tick. rewrite tick_run_forOf. apply forOf_globals.
Qed.

(** X8. In a tick no particle is stepped twice, and the particles
    stepped are met in the order of the registry. *)
Theorem tick_visits_once st :
  wf st →
  NoDup (tick_log st).*1 ∧ (tick_log st).*1 `sublist_of` particles st.
Proof.
  intros Hwf. split; [by apply tick_log_NoDup|].
  unfold tick_log. rewrite tick_run_forOf.
  (* the visited ones are met in array order *)
  cut (∀ fuel i s, (forOf fuel i s).2.*1 `sublist_of` drop i (particles s)).
  { intros Hc. specialize (Hc (length (particles st)) 0 st).
    by rewrite drop_0 in Hc. }
  clear. induction fuel as [|fuel IH]; intros i s; [apply sublist_nil_l|].
  rewrite forOf_unfold. destruct (particles s !! i) as [l0|] eqn:Hi.
  2: { apply sublist_nil_l. }
  cbn [snd fmap list_fmap]. rewrite (drop_S _ _ _ Hi).
  apply sublist_skip. etrans; [apply IH|].
  apply sublist_drop_mono, visit_sublist.
Qed.

(** X23. In every state the script reaches, the registry holds no
    particle twice, each of its entries is a particle object, and every
    entry of a trace is a trace-entry object of its own. *)
Theorem reachable_wf es (w h : A) : wf (run es (init w h)).
Proof. apply wf_run, wf_init. Qed.

(** X12. In every state the script reaches, no trace holds more
    than 1200 entries. *)
Theorem trace_never_exceeds_1200 es (w h : A) :
  trace_bounded (run es (init w h)).
Proof. apply run_trace_bounded. Qed.

(** X17. A particle of the registry at a reset is in no registry
    afterwards, whatever events follow. *)
Theorem reset_forgets st l :
  wf st → l ∈ particles st →
  ∀ es, l ∉ particles (run es (resetParticle st)).
Proof.
  intros Hwf Hl es. apply run_absent.
  - destruct (wf_registry _ Hwf l Hl) as [p Hp]. simpl. rewrite Hp. eauto.
  - simpl. apply not_elem_of_nil.
Qed.

(** X16. In every state the script reaches, [center] is the
    middle of the window as [resize] computes it. *)
Theorem center_follows_window es (w h : A) :
  center_synced (run es (init w h)).
Proof.
  assert (Hgen : ∀ st, center_synced st → center_synced (run es st)).
  { induction es as [|e es IH]; intros st Hc; [done|].
    rewrite run_cons. apply IH. destruct e; simpl; try done.
    - unfold mousemove. by destruct (dragging st).
    - unfold mouseup. destruct (dragging st); simpl; [|done].
      by destruct (dragStart st).
    - unfold center_synced, tick. rewrite tick_run_forOf.
      by destruct (forOf_globals (length (particles st)) 0 st)
        as (-> & -> & ->). }
  by apply Hgen.
Qed.
End MoreRegistryFacts.

(** ** Traces *)

Section TraceFacts.
Context {A : Type} `{Num A}.
Implicit Types (st : sim A) (l t : loc) (p : particle A).

Lemma last_record_trace t p : last (p_trace (record_trace t p)) = Some t.
Proof.
  unfold record_trace, push, shift. cbn [p_trace set_trace].
  destruct (1200 <? _)%nat eqn:E; cbn [p_trace set_trace].
  - apply Nat.ltb_lt in E. rewrite length_app in E.
    destruct (p_trace p) as [|a k]; [cbn [length] in E; lia|].
    cbn [app tail]. by rewrite last_snoc.
  - by rewrite last_snoc.
Qed.

Lemma advance_trace_tip l st : trace_tip st → trace_tip (advance l st).1.
Proof.
  intros Htip l' p' t.
  destruct (heap st !! l) as [[p|q]|] eqn:E.
  2,3: rewrite advance_other by (intros ?; congruence); apply Htip.
  rewrite (advance_particle _ _ _ E). cbn [fst heap with_heap].
  set (p1 := (stepVerlet (center st) p dt).1).
  set (t0 := fresh (dom (heap st))).
  assert (Ht0 : heap st !! t0 = None) by apply fresh_lookup.
  assert (Hne0 : t0 ≠ l) by (intros Heq; congruence).
  destruct (decide (l' = l)) as [->|Hne].
  - rewrite lookup_insert_eq. intros [= <-].
    rewrite last_record_trace. intros [= <-].
    rewrite lookup_insert_ne by done. rewrite lookup_insert_eq.
    by rewrite pos_record_trace.
  - rewrite lookup_insert_ne by done.
    destruct (decide (l' = t0)) as [->|Hne'].
    { by rewrite lookup_insert_eq. }
    rewrite lookup_insert_ne by done. intros Hl' Hlast.
    pose proof (Htip _ _ _ Hl' Hlast) as Ht.
    rewrite !lookup_insert_ne; [done|congruence..].
Qed.

Lemma forOf_trace_tip fuel i st : trace_tip st → trace_tip (forOf fuel i st).1.
Proof.
  revert i st. induction fuel as [|fuel IH]; intros i st Htip; [done|].
  rewrite forOf_unfold. destruct (particles st !! i) as [l|]; [|done].
  cbn [fst]. apply IH. intros l' p' t. rewrite visit_heap.
  by apply advance_trace_tip.
Qed.

Lemma handle_trace_tip e st : trace_tip st → trace_tip (handle e st).
Proof.
  intros Htip. destruct e; simpl; try done.
  - unfold mousemove. by destruct (dragging st).
  - unfold mouseup. destruct (dragging st); simpl; [|done].
    destruct (dragStart st) as [start|]; simpl; [|done].
    intros l p t. simpl.
    destruct (decide (l = fresh (dom (heap st)))) as [->|Hne].
    + rewrite lookup_insert_eq. by intros [= <-].
    + rewrite lookup_insert_ne by done. intros Hl Hlast.
      pose proof (Htip _ _ _ Hl Hlast) as Ht.
      rewrite lookup_insert_ne; [done|].
      intros <-. by rewrite fresh_lookup in Ht.
  - unfold tick. rewrite tick_run_forOf. by apply forOf_trace_tip.
Qed.

Lemma run_trace_tip es (w h : A) : trace_tip (run es (init w h)).
Proof.
  assert (Hgen : ∀ st, trace_tip st → trace_tip (run es st)).
  { induction es as [|e es IH]; intros st Hb; [done|].
    rewrite run_cons. by apply IH, handle_trace_tip. }
  apply Hgen. intros l p t. simpl. by rewrite lookup_empty.
Qed.

(** X10. In every state the script reaches, the last entry of a
    non-empty trace holds the position of its particle. *)
Theorem trace_ends_at_particle es (w h : A) :
  trace_tip (run es (init w h)).
Proof. apply run_trace_tip. Qed.

(** X11. A step appends the new position to the trace and, once the
    trace would exceed 1200 entries, drops the oldest: the positions the
    trace denotes afterwards are the last 1200 of the old ones followed by
    the new one. *)
Theorem trace_is_fifo st l p :
  wf st → heap st !! l = Some (OParticle p) →
  length (p_trace p) ≤ 1200 →
  ∃ p', heap (advance l st).1 !! l = Some (OParticle p')
        ∧ pos p' = pos (stepVerlet (center st) p dt).1
        ∧ trace_positions (advance l st).1 p'
          = drop (length (p_trace p) + 1 - 1200)
                 (trace_positions st p ++ [Some (pos p')]).
Proof.
  intros Hwf Hl Hlen.
  rewrite (advance_particle _ _ _ Hl). cbn zeta. cbn [fst heap with_heap].
  set (p1 := (stepVerlet (center st) p dt).1).
  set (t0 := fresh (dom (heap st))).
  assert (Ht0 : heap st !! t0 = None) by apply fresh_lookup.
  assert (Hne0 : t0 ≠ l) by (intros Heq; congruence).
  exists (record_trace t0 p1). rewrite lookup_insert_eq.
  split; [done|]. split; [apply pos_record_trace|].
  unfold trace_positions. cbn [heap with_heap].
  rewrite record_trace_fifo by done. change (p_trace p1) with (p_trace p).
  rewrite fmap_drop, fmap_app. f_equal. f_equal.
  - apply list_fmap_ext. intros j t Hj.
    destruct (wf_trace _ Hwf _ _ t Hl) as [q Hq].
    { by eapply list_elem_of_lookup_2. }
    rewrite !lookup_insert_ne; [done|congruence..].
  - cbn [fmap list_fmap]. rewrite lookup_insert_ne by done.
    rewrite lookup_insert_eq. cbn. by rewrite pos_record_trace.
Qed.
End TraceFacts.

(** ** Handlers *)

Section HandlerFacts.
Context {A : Type} `{Num A}.
Implicit Types (st : sim A) (l t : loc) (p : particle A).

Lemma run_app es es' st : run (es ++ es') st = run es' (run es st).
Proof. unfold run. by rewrite foldl_app. Qed.

Lemma run_moves ms st :
  dragging st = true →
  let st' := run (moves ms) st in
  dragging st' = true ∧ dragStart st' = dragStart st
  ∧ heap st' = heap st ∧ particles st' = particles st.
Proof.
  revert st. induction ms as [|[mx my] ms IH]; intros st Hd; [done|].
  cbn [moves fmap list_fmap]. rewrite run_cons. cbn [handle fst snd].
  unfold mousemove. rewrite Hd.
  destruct (IH (with_drag true (dragStart st) (Some (Point mx my)) st))
    as (? & ? & ? & ?); done.
Qed.

(** X13. A press at [(x, y)], any number of moves, and a release
    at [(ex, ey)] append exactly one new particle to the registry: at the
    press point, with velocity the drag vector times 0.05, stored
    acceleration zero and an empty trace; and the drag is over. *)
Theorem drag_launches_one_particle x y ex ey ms st :
  let st' := run (MouseDown x y :: moves ms ++ [MouseUp ex ey]) st in
  let l := fresh (dom (heap st)) in
  heap st !! l = None
  ∧ particles st' = particles st ++ [l]
  ∧ heap st'
    = <[l := OParticle
              (Particle x y (nmul (nsub ex x) vscale)
                        (nmul (nsub ey y) vscale) (lit 0) (lit 0) [])]>
        (heap st)
  ∧ dragging st' = false.
Proof.
  intros st' l. split; [apply fresh_lookup|].
  unfold st'. rewrite run_cons, run_app. cbn [handle].
  destruct (run_moves ms (mousedown x y st)) as (Hd & Hs & Hh & Hp); [done|].
  set (s := run (moves ms) (mousedown x y st)) in *.
  cbn [run foldl handle]. unfold mouseup. rewrite Hd. cbn [negb].
  cbn [dragStart with_drag]. rewrite Hs. cbn [mousedown with_drag dragStart].
  cbn. rewrite Hh, Hp. done.
Qed.

(** X14. After a release no drag is in progress: a second release
    and a move change nothing, so a release without a press launches
    nothing. *)
Theorem release_ends_drag x y x' y' st :
  dragging (mouseup x y st) = false
  ∧ mouseup x' y' (mouseup x y st) = mouseup x y st
  ∧ mousemove x' y' (mouseup x y st) = mouseup x y st.
Proof.
  assert (Hd : dragging (mouseup x y st) = false).
  { unfold mouseup. destruct (dragging st) eqn:E; simpl; [|done].
    by destruct (dragStart st). }
  split; [done|]. split.
  - unfold mouseup at 1. by rewrite Hd.
  - unfold mousemove. by rewrite Hd.
Qed.

(** ** The tick does not look at the switches or at the drag *)

Lemma advance_with_toggles a b c l st :
  advance l (with_toggles a b c st)
  = (with_toggles a b c (advance l st).1, (advance l st).2).
Proof.
  unfold advance. cbn [heap with_toggles center].
  by destruct (heap st !! l) as [[p|q]|].
Qed.

Lemma advance_with_drag a b c l st :
  advance l (with_drag a b c st)
  = (with_drag a b c (advance l st).1, (advance l st).2).
Proof.
  unfold advance. cbn [heap with_drag center].
  by destruct (heap st !! l) as [[p|q]|].
Qed.

Lemma visit_with_toggles a b c l st :
  visit l (with_toggles a b c st)
  = (with_toggles a b c (visit l st).1, (visit l st).2).
Proof.
  rewrite !visit_unfold, advance_with_toggles. cbn zeta. cbn [fst snd].
  destruct (swallowed (advance l st).2); cbn;
    by destruct (offscreen l _).
Qed.

Lemma visit_with_drag a b c l st :
  visit l (with_drag a b c st)
  = (with_drag a b c (visit l st).1, (visit l st).2).
Proof.
  rewrite !visit_unfold, advance_with_drag. cbn zeta. cbn [fst snd].
  destruct (swallowed (advance l st).2); cbn;
    by destruct (offscreen l _).
Qed.

Lemma forOf_with_toggles a b c fuel i st :
  forOf fuel i (with_toggles a b c st)
  = (with_toggles a b c (forOf fuel i st).1, (forOf fuel i st).2).
Proof.
  revert i st. induction fuel as [|fuel IH]; intros i st; [done|].
  rewrite !forOf_unfold. cbn [particles with_toggles].
  destruct (particles st !! i) as [l|]; [|done].
  rewrite visit_with_toggles. cbn [fst snd]. by rewrite IH.
Qed.

Lemma forOf_with_drag a b c fuel i st :
  forOf fuel i (with_drag a b c st)
  = (with_drag a b c (forOf fuel i st).1, (forOf fuel i st).2).
Proof.
  revert i st. induction fuel as [|fuel IH]; intros i st; [done|].
  rewrite !forOf_unfold. cbn [particles with_drag].
  destruct (particles st !! i) as [l|]; [|done].
  rewrite visit_with_drag. cbn [fst snd]. by rewrite IH.
Qed.

Lemma forOf_ui fuel i st :
  let st' := (forOf fuel i st).1 in
  traceOn st' = traceOn st ∧ velocityOn st' = velocityOn st
  ∧ accelOn st' = accelOn st ∧ dragging st' = dragging st
  ∧ dragStart st' = dragStart st ∧ previewPos st' = previewPos st.
Proof.
  revert i st. induction fuel as [|fuel IH]; intros i st; [done|].
  rewrite forOf_unfold. destruct (particles st !! i) as [l|]; [|done].
  cbn [fst]. destruct (IH (S i) (visit l st).1) as (-> & -> & -> & -> & -> & ->).
  rewrite visit_unfold. cbn zeta. cbn [fst].
  unfold advance. destruct (heap st !! l) as [[p|q]|];
    destruct (swallowed _); cbn; destruct (offscreen _ _); done.
Qed.

Lemma tick_with_toggles a b c st :
  tick (with_toggles a b c st) = with_toggles a b c (tick st).
Proof.
  unfold tick. rewrite !tick_run_forOf. cbn [particles with_toggles].
  by rewrite forOf_with_toggles.
Qed.

Lemma tick_with_drag a b c st :
  tick (with_drag a b c st) = with_drag a b c (tick st).
Proof.
  unfold tick. rewrite !tick_run_forOf. cbn [particles with_drag].
  by rewrite forOf_with_drag.
Qed.

Lemma tick_ui st :
  traceOn (tick st) = traceOn st ∧ velocityOn (tick st) = velocityOn st
  ∧ accelOn (tick st) = accelOn st ∧ dragging (tick st) = dragging st
  ∧ dragStart (tick st) = dragStart st ∧ previewPos (tick st) = previewPos st.
Proof. unfold tick. rewrite tick_run_forOf. apply forOf_ui. Qed.

(** X15. A frame commutes with the overlay switches, a press and a
    move: the tick neither reads nor writes the switches or the drag. *)
Theorem frame_ignores_ui e st :
  ui_only e = true →
  handle Frame (handle e st) = handle e (handle Frame st).
Proof.
  intros He. destruct (tick_ui st) as (Ht & Hv & Ha & Hd & Hs & Hp).
  destruct e; try discriminate He; cbn [handle animate fst].
  - apply tick_with_drag.
  - unfold mousemove. rewrite Hd. destruct (dragging st); [|done].
    rewrite tick_with_drag. by rewrite Hs.
  - rewrite tick_with_toggles. by rewrite Ht, Hv, Ha.
  - rewrite tick_with_toggles. by rewrite Ht, Hv, Ha.
  - rewrite tick_with_toggles. by rewrite Ht, Hv, Ha.
Qed.

(** X5. Were both removal tests to hold in one visit, the second
    [splice] would get [indexOf = -1] and take the last element of what
    the first one left: a particle other than the visited one.  (In the
    states the script reaches the two tests never hold together, see
    [centred_no_both].) *)
Theorem double_splice_takes_last st l :
  NoDup (particles st) → l ∈ particles st →
  swallowed (visit l st).2 = true →
  offscreen l (advance l st).1 = true →
  let gone := filter (λ x, x ≠ l) (particles st) in
  particles (visit l st).1 = take (length gone - 1) gone.
Proof.
  intros Hnd Hl Hsw Hoff gone.
  rewrite (visit_particles l st Hnd Hl). by rewrite Hsw, Hoff.
Qed.
End HandlerFacts.

(** ** The canvas *)

Section CanvasFacts.
Context {A : Type} `{Num A}.
Local Open Scope string_scope.
Implicit Types (st : sim A) (l t : loc) (p : particle A).

Lemma trace_path_points st ts :
  (∀ t, t ∈ ts → ∃ q, heap st !! t = Some (OPoint q)) →
  ∃ qs, (λ t, obj_xy <$> heap st !! t) <$> ts = Some <$> qs
        ∧ trace_path st ts = polyline qs.
Proof.
  intros Hts.
  assert (Htail : ∀ ts, (∀ t, t ∈ ts → ∃ q, heap st !! t = Some (OPoint q)) →
    ∃ qs, (λ t, obj_xy <$> heap st !! t) <$> ts = Some <$> qs
      ∧ ∀ k, mjoin (imap (λ i t,
                match heap st !! t with
                | Some o =>
                    let q := obj_xy o in
                    [if decide (S (k + i) = 0%nat)
                     then MoveTo (pt_x q) (pt_y q)
                     else LineTo (pt_x q) (pt_y q)]
                | None => []
                end) ts)
             = (λ q, LineTo (pt_x q) (pt_y q)) <$> qs).
  { clear. induction ts as [|t ts IH]; intros Hts.
    - by exists [].
    - destruct (Hts t) as [q Hq]; [apply list_elem_of_here|].
      destruct IH as (qs & Hqs & Hpath).
      { intros t' Ht'. apply Hts. by apply list_elem_of_further. }
      exists (q :: qs). split.
      + cbn [fmap list_fmap]. rewrite Hq. cbn. by rewrite <-Hqs.
      + intros k. cbn [imap mjoin list_join]. rewrite Hq.
        cbn [obj_xy app fmap list_fmap]. f_equal.
        by rewrite <-(Hpath (S k)). }
  destruct ts as [|t ts]; [by exists []|].
  destruct (Hts t) as [q Hq]; [apply list_elem_of_here|].
  destruct (Htail ts) as (qs & Hqs & Hpath).
  { intros t' Ht'. apply Hts. by apply list_elem_of_further. }
  exists (q :: qs). split.
  - cbn [fmap list_fmap]. rewrite Hq. cbn. by rewrite <-Hqs.
  - unfold trace_path. cbn [imap mjoin list_join]. rewrite Hq.
    cbn [obj_xy app polyline]. f_equal. by rewrite <-(Hpath 0).
Qed.

(** X21. [drawParticle] strokes, when the trace is switched on, the
    polyline through the positions the trace denotes, which ends at the
    particle, and then fills a disc of radius 3 at the particle. *)
Theorem drawParticle_polyline st l p :
  wf st → trace_tip st → heap st !! l = Some (OParticle p) →
  ∃ qs, trace_positions st p = Some <$> qs
        ∧ (∀ q, last qs = Some q → q = pos p)
        ∧ drawParticle st (Some l)
          = (if traceOn st
             then [BeginPath] ++ polyline qs
                  ++ [StrokeStyle "rgba(255,255,255,0.6)";
                      LineWidth (lit 1); Stroke]
             else [])
            ++ [FillStyle (Colour "#fff");
                BeginPath; Arc (p_x p) (p_y p) (lit 3); Fill].
Proof.
  intros Hwf Htip Hl.
  destruct (trace_path_points st (p_trace p)) as (qs & Hqs & Hpath).
  { intros t Ht. by eapply wf_trace. }
  exists qs. split; [done|]. split.
  - intros q Hq.
    assert (Hlast : last (trace_positions st p) = Some (Some q)).
    { unfold trace_positions. by rewrite Hqs, fmap_last, Hq. }
    unfold trace_positions in Hlast. rewrite fmap_last in Hlast.
    destruct (last (p_trace p)) as [t|] eqn:Et; [|done].
    cbn in Hlast. rewrite (Htip _ _ _ Hl Et) in Hlast.
    cbn in Hlast. congruence.
  - unfold drawParticle. rewrite Hl. by rewrite Hpath.
Qed.
End CanvasFacts.

Section OverlayFacts.
Context {A : Type} `{Num A}.
Local Open Scope string_scope.
Implicit Types (st : sim A) (l t : loc) (p : particle A).

(** The acceleration a step leaves in the particle is the field at the
    position it leaves the particle at. *)
Lemma stepVerlet_stores_field (c : point A) p (h : A) :
  acceleration c (pos (stepVerlet c p h).1)
  = Accel (p_ax (stepVerlet c p h).1) (p_ay (stepVerlet c p h).1)
          (stepVerlet c p h).2.
Proof.
  unfold stepVerlet, stepVerlet_velocity. cbn zeta.
  cbn [fst snd set_vx set_vy set_ax set_ay p_x p_y p_ax p_ay].
  set (q := stepVerlet_position c p h).
  change (pos (set_ay _ (set_ax _ (set_vy _ (set_vx _ q))))) with (pos q).
  by destruct (acceleration c (pos q)).
Qed.

Lemma record_trace_fields t p :
  p_x (record_trace t p) = p_x p ∧ p_y (record_trace t p) = p_y p
  ∧ p_vx (record_trace t p) = p_vx p ∧ p_vy (record_trace t p) = p_vy p
  ∧ p_ax (record_trace t p) = p_ax p ∧ p_ay (record_trace t p) = p_ay p.
Proof. unfold record_trace. by destruct (1200 <? _)%nat. Qed.

(** The object of a visited particle at the end of the loop is the one
    its own visit wrote. *)
Lemma forOf_visited_object fuel i st l r :
  wf st → (l, r) ∈ (forOf fuel i st).2 →
  ∃ p t, heap st !! l = Some (OParticle p)
         ∧ heap (forOf fuel i st).1 !! l
           = Some (OParticle
                     (record_trace t (stepVerlet (center st) p dt).1))
         ∧ r = (stepVerlet (center st) p dt).2.
Proof.
  revert i st. induction fuel as [|fuel IH]; intros i st Hwf.
  { simpl. by intros ?%elem_of_nil. }
  rewrite forOf_unfold. destruct (particles st !! i) as [l0|] eqn:Hi.
  2: { simpl. by intros ?%elem_of_nil. }
  cbn [fst snd]. intros [[= -> ->]|Hin]%elem_of_cons.
  - destruct (wf_registry _ Hwf l0) as [p Hp].
    { by eapply list_elem_of_lookup_2. }
    exists p, (fresh (dom (heap st))). split; [done|]. split.
    + rewrite forOf_unvisited.
      * rewrite visit_heap, (advance_particle _ _ _ Hp). cbn.
        apply lookup_insert_eq.
      * rewrite visit_heap, (advance_particle _ _ _ Hp). cbn.
        rewrite lookup_insert_eq. eauto.
      * intros [[l' r'] [Heq Hin]]%list_elem_of_fmap. simpl in Heq. subst l'.
        apply forOf_log_in in Hin.
        eapply elem_of_sublist in Hin;
          [|apply sublist_drop_mono, visit_sublist].
        apply list_elem_of_lookup in Hin as [j Hj].
        rewrite lookup_drop in Hj.
        pose proof (NoDup_lookup _ _ _ _ (wf_nodup _ Hwf) Hi Hj). lia.
    + by rewrite visit_r, (advance_particle _ _ _ Hp).
  - pose proof Hin as Hdrop. apply forOf_log_in in Hdrop.
    eapply elem_of_sublist in Hdrop;
      [|apply sublist_drop_mono, visit_sublist].
    apply list_elem_of_lookup in Hdrop as [j Hj].
    rewrite lookup_drop in Hj.
    assert (Hne : l ≠ l0).
    { intros ->.
      pose proof (NoDup_lookup _ _ _ _ (wf_nodup _ Hwf) Hi Hj). lia. }
    assert (Hsome : is_Some (heap st !! l)).
    { destruct (wf_registry _ Hwf l) as [p ->]; [|eauto].
      by eapply list_elem_of_lookup_2. }
    destruct (IH _ _ (wf_visit l0 st Hwf) Hin) as (p & t & Hp & Hfin & ->).
    rewrite visit_heap, advance_lookup_ne in Hp by done.
    destruct (visit_globals l0 st) as (Hc & _). rewrite Hc in *.
    eauto.
Qed.

(** X22. For a particle stepped in this frame, the field the
    acceleration overlay recomputes is the one the step stored in the
    particle, and [r] is what the step returned: the arrow is drawn from
    the stored [ax], [ay]. *)
Theorem acceleration_arrow_shows_stored st l r p' :
  wf st → (l, r) ∈ tick_log st →
  heap (tick st) !! l = Some (OParticle p') →
  acceleration (center (tick st)) (pos p') = Accel (p_ax p') (p_ay p') r
  ∧ acceleration_arrow (tick st) l
    = [StrokeStyle "rgba(255,80,80,0.9)"; LineWidth (lit 2); BeginPath;
       MoveTo (p_x p') (p_y p');
       LineTo (nadd (p_x p') (nmul (p_ax p') (lit 20)))
              (nadd (p_y p') (nmul (p_ay p') (lit 20)));
       Stroke;
       FillStyle (Colour "#f88"); Font "12px Arial";
       FillText "a="
         (nsqrt (nadd (nmul (p_ax p') (p_ax p')) (nmul (p_ay p') (p_ay p'))))
         (nadd (p_x p') (lit 6)) (nsub (p_y p') (lit 6))].
Proof.
  intros Hwf Hlog Hp'.
  assert (Hacc : acceleration (center (tick st)) (pos p')
                 = Accel (p_ax p') (p_ay p') r).
  { unfold tick, tick_log in *. rewrite tick_run_forOf in *.
    destruct (forOf_visited_object _ _ _ _ _ Hwf Hlog)
      as (p & t & Hp & Hfin & ->).
    assert (p' = record_trace t (stepVerlet (center st) p dt).1) as ->
      by congruence.
    destruct (forOf_globals (length (particles st)) 0 st) as (-> & _).
    destruct (record_trace_fields t (stepVerlet (center st) p dt).1)
      as (_ & _ & _ & _ & -> & ->).
    rewrite pos_record_trace. apply stepVerlet_stores_field. }
  split; [done|].
  unfold acceleration_arrow. rewrite Hp'. cbn zeta. by rewrite Hacc.
Qed.
End OverlayFacts.

(** ** Whole runs with the divisions watched *)

Section CheckedRuns.
Implicit Types (st : sim R) (l t : loc) (p : particle R).

Lemma swallowed_checked (r : R) : swallowed (Val r) = swallowed r.
Proof. reflexivity. Qed.

Lemma val_sim_lookup st l :
  heap (val_sim st) !! l = val_obj <$> heap st !! l.
Proof. cbn [heap val_sim]. apply lookup_fmap. Qed.

Lemma val_sim_fresh st :
  fresh (dom (heap (val_sim st))) = fresh (dom (heap st)).
Proof. cbn [heap val_sim]. by rewrite dom_fmap_L. Qed.

Lemma offscreen_checked l st : offscreen l (val_sim st) = offscreen l st.
Proof.
  unfold offscreen. rewrite val_sim_lookup.
  destruct (heap st !! l) as [[p|q]|]; reflexivity.
Qed.

Lemma record_trace_checked t p :
  record_trace t (val_particle p) = val_particle (record_trace t p).
Proof.
  unfold record_trace. cbn [p_trace set_trace val_particle].
  by destruct (1200 <? _)%nat.
Qed.

Lemma advance_checked l st :
  advance l (val_sim st)
  = (val_sim (advance l st).1, Val (advance l st).2).
Proof.
  unfold advance. rewrite val_sim_lookup, val_sim_fresh.
  destruct (heap st !! l) as [[p|q]|]; cbn [fmap option_fmap option_map val_obj];
    [|reflexivity..].
  cbn [center val_sim]. rewrite dt_checked, stepVerlet_checked.
  destruct (stepVerlet (center st) p dt) as [p1 r]. cbn [fst snd].
  rewrite record_trace_checked.
  unfold val_sim, with_heap. cbn. f_equal. f_equal.
  by rewrite !fmap_insert.
Qed.

Lemma remove_particle_checked l st :
  remove_particle l (val_sim st) = val_sim (remove_particle l st).
Proof. reflexivity. Qed.

Lemma visit_checked l st :
  visit l (val_sim st) = (val_sim (visit l st).1, Val (visit l st).2).
Proof.
  rewrite !visit_unfold, advance_checked. cbn zeta. cbn [fst snd].
  rewrite swallowed_checked.
  destruct (swallowed (advance l st).2);
    rewrite ?remove_particle_checked, offscreen_checked;
    by destruct (offscreen l _).
Qed.

Lemma forOf_checked fuel i st :
  forOf fuel i (val_sim st)
  = (val_sim (forOf fuel i st).1,
     val_log (forOf fuel i st).2).
Proof.
  revert i st. induction fuel as [|fuel IH]; intros i st; [done|].
  rewrite !forOf_unfold. cbn [particles val_sim].
  destruct (particles st !! i) as [l|]; [|done].
  rewrite visit_checked. cbn [fst snd]. by rewrite IH.
Qed.

Lemma tick_checked st : tick (val_sim st) = val_sim (tick st).
Proof.
  unfold tick. rewrite !tick_run_forOf. cbn [particles val_sim].
  by rewrite forOf_checked.
Qed.

Lemma half_of_checked (w : R) : ndiv (Val w) (lit 2) = Val (w / 2).
Proof.
  cbn [ndiv lit checked_Num]. unfold checked_div.
  rewrite decide_False by lra. reflexivity.
Qed.

Lemma resize_checked st : resize (val_sim st) = val_sim (resize st).
Proof.
  unfold resize, with_center, val_sim, val_point.
  cbn [heap center innerWidth innerHeight particles traceOn velocityOn
       accelOn dragging dragStart previewPos pt_x pt_y].
  by rewrite !half_of_checked.
Qed.

Lemma init_checked (w h : R) : init (Val w) (Val h) = val_sim (init w h).
Proof.
  unfold init, resize, with_center, val_sim, val_point.
  cbn [heap center innerWidth innerHeight particles traceOn velocityOn
       accelOn dragging dragStart previewPos pt_x pt_y].
  rewrite !half_of_checked. by rewrite fmap_empty.
Qed.

Lemma vscale_checked : (vscale : checked) = Val vscale.
Proof.
  unfold vscale. cbn [ndiv lit checked_Num]. unfold checked_div.
  rewrite decide_False by lra. reflexivity.
Qed.

Lemma mouseup_checked (x y : R) st :
  mouseup (Val x) (Val y) (val_sim st) = val_sim (mouseup x y st).
Proof.
  unfold mouseup. cbn [dragging val_sim].
  destruct (dragging st); cbn [negb]; [|reflexivity].
  cbn [dragStart with_drag val_sim].
  destruct (dragStart st) as [start|]; cbn [fmap option_fmap option_map];
    [|reflexivity].
  rewrite vscale_checked.
  unfold with_particles, with_heap, with_drag, val_sim.
  cbn [heap center innerWidth innerHeight particles traceOn velocityOn
       accelOn dragging dragStart previewPos].
  rewrite dom_fmap_L, fmap_insert. reflexivity.
Qed.

Lemma handle_checked e st :
  handle (val_event e) (val_sim st) = val_sim (handle e st).
Proof.
  destruct e; cbn [val_event handle animate fst]; try reflexivity.
  - change (with_window (Val w) (Val h) (val_sim st))
      with (val_sim (with_window w h st)).
    apply resize_checked.
  - unfold mousemove. cbn [dragging val_sim]. by destruct (dragging st).
  - apply mouseup_checked.
  - apply tick_checked.
Qed.

Lemma run_checked es st :
  run (val_event <$> es) (val_sim st) = val_sim (run es st).
Proof.
  revert st. induction es as [|e es IH]; intros st; [done|].
  cbn [fmap list_fmap]. rewrite !run_cons, handle_checked. apply IH.
Qed.

(** X24. No run of the script divides by zero: run with the divisions
    watched, from a window of any size and on events with any
    coordinates, it goes through the states of exact arithmetic, so every
    number in every state it reaches is a proper value; and the [r]
    each tick hands to the swallow test is one too. *)
Theorem run_never_divides_by_zero es (w h : R) :
  let st := run (val_event <$> es) (init (Val w) (Val h)) in
  st = val_sim (run es (init w h))
  ∧ tick_log st = val_log (tick_log (run es (init w h))).
Proof.
  intros st. assert (Hst : st = val_sim (run es (init w h))).
  { unfold st. by rewrite init_checked, run_checked. }
  split; [exact Hst|]. rewrite Hst.
  unfold tick_log. rewrite !tick_run_forOf. cbn [particles val_sim].
  by rewrite forOf_checked.
Qed.
End CheckedRuns.

(** ** The removal tests, in exact arithmetic *)

Section ExactRegistry.
Local Open Scope R_scope.
Implicit Types (st : sim R) (l t : loc) (p : particle R).

Lemma init_centred w h : 0 <= w → 0 <= h → centred (init w h).
Proof. intros Hw Hh. by repeat split. Qed.

Lemma handle_centred e st :
  valid_event e → centred st → centred (handle e st).
Proof.
  intros He Hc. destruct e; simpl in *; try done.
  - unfold mousemove. by destruct (dragging st).
  - unfold mouseup. destruct (dragging st); simpl; [|done].
    by destruct (dragStart st).
  - unfold centred. unfold tick. rewrite tick_run_forOf.
    by destruct (forOf_globals (length (particles st)) 0 st)
      as (-> & -> & ->).
Qed.

(** Every state the script reaches in windows of non-negative size is
    centred. *)
Lemma run_centred es st :
  Forall valid_event es → centred st → centred (run es st).
Proof.
  intros Hes. revert st.
  induction Hes as [|e es He Hes IH]; intros st Hc; [done|].
  rewrite run_cons. by apply IH, handle_centred.
Qed.

Lemma visit_centred l st : centred st → centred (visit l st).1.
Proof.
  unfold centred. by destruct (visit_globals l st) as (-> & -> & ->).
Qed.

Lemma dist_bounds c q d :
  dist c q < d →
  pt_x c - d < pt_x q < pt_x c + d ∧ pt_y c - d < pt_y q < pt_y c + d.
Proof.
  intros Hd. pose proof (dist_nonneg c q) as H0.
  pose proof (dist_sqr c q) as Hsq.
  set (dx := pt_x q - pt_x c) in *. set (dy := pt_y q - pt_y c) in *.
  assert (dx * dx < d * d ∧ dy * dy < d * d) as [Hx Hy] by (split; nra).
  assert (Hdpos : 0 < d) by lra.
  assert (- d < dx < d ∧ - d < dy < d) as [? ?] by (split; split; nra).
  unfold dx, dy in *. lra.
Qed.

(** In a centred window a particle inside the swallow radius is on
    screen: the two removal tests never hold together. *)
Lemma swallowed_not_offscreen st l p r :
  centred st → heap st !! l = Some (OParticle p) →
  r = dist (center st) (pos p) →
  swallowed r = true → offscreen l st = false.
Proof.
  intros (Hc & Hw & Hh) Hl -> Hsw.
  unfold swallowed, BH_RADIUS in Hsw. exact_arith.
  apply bool_decide_eq_true in Hsw.
  apply dist_bounds in Hsw. rewrite Hc in Hsw. simpl in Hsw.
  unfold offscreen. rewrite Hl. cbn [obj_xy pt_x pt_y]. exact_arith.
  repeat (rewrite bool_decide_eq_false_2; [|lra]). done.
Qed.

(** When the loop visits a particle, the swallow test is taken on the
    [r] of its step and the offscreen test on its position after the
    step, each on its own; the two never hold together, and the registry
    afterwards is the registry before with exactly that particle taken
    out when either test holds, and unchanged otherwise. *)
Lemma visit_removes_once st l :
  wf st → centred st → l ∈ particles st →
  let r := (visit l st).2 in
  let off := offscreen l (advance l st).1 in
  ¬ (swallowed r = true ∧ off = true)
  ∧ particles (visit l st).1
    = if swallowed r || off
      then filter (λ x, x ≠ l) (particles st)
      else particles st.
Proof.
  intros Hwf Hc Hin r off.
  destruct (wf_registry _ Hwf l Hin) as [p Hp].
  assert (Hexcl : swallowed r = true → off = false).
  { unfold r, off. rewrite visit_r, (advance_particle _ _ _ Hp).
    cbn zeta. cbn [fst snd]. intros Hsw.
    rewrite stepVerlet_r in Hsw.
    eapply swallowed_not_offscreen; [done| | |exact Hsw].
    - cbn. apply lookup_insert_eq.
    - cbn [center with_heap]. by rewrite pos_record_trace. }
  split.
  - intros [Hsw Hoff]. rewrite Hexcl in Hoff; done.
  - rewrite (visit_particles l st) by (done || apply Hwf).
    fold r. fold off. destruct (swallowed r) eqn:Hsw.
    + by rewrite Hexcl.
    + by destruct off.
Qed.

(** From distance 10 the pull of the first half step is exactly half the
    offset, so the offset after the step is [d/2 + v/10]: up to speed 250
    it is no longer than 30, two short of the swallow radius. *)
Lemma step_from_10 c p :
  dist c (pos p) = 10 →
  p_vx p * p_vx p + p_vy p * p_vy p <= 250 * 250 →
  (stepVerlet c p dt).2 <= 30.
Proof.
  intros Hd Hv. rewrite stepVerlet_r, stepVerlet_exact.
  unfold velocity_verlet. cbn zeta. cbn [fst pos p_x p_y].
  assert (Hne : pos p ≠ c).
  { intros Heq. apply dist_zero_iff in Heq. lra. }
  rewrite (acceleration_off_centre c (pos p) Hne). cbn [a_ax a_ay].
  rewrite Hd. pose proof (dist_sqr c (pos p)) as Hsq. rewrite Hd in Hsq.
  unfold G, M, dt. exact_arith. cbn [pos pt_x pt_y] in *.
  set (dx := p_x p - pt_x c) in *. set (dy := p_y p - pt_y c) in *.
  set (vx := p_vx p) in *. set (vy := p_vy p) in *.
  unfold dist. cbn [pos p_x p_y pt_x pt_y].
  replace (p_x p) with (pt_x c + dx) by (unfold dx; lra).
  replace (p_y p) with (pt_y c + dy) by (unfold dy; lra).
  match goal with |- sqrt ?s <= _ =>
    replace s with ((dx / 2 + vx / 10) * (dx / 2 + vx / 10)
                    + (dy / 2 + vy / 10) * (dy / 2 + vy / 10))
      by (unfold dx, dy; field)
  end.
  rewrite <-(sqrt_square 30) by lra.
  apply sqrt_le_1; [apply sumsq_nonneg|lra|].
  assert (Hcs : (dx * vx + dy * vy) * (dx * vx + dy * vy)
                <= (dx * dx + dy * dy) * (vx * vx + vy * vy)).
  { pose proof (Rle_0_sqr (dx * vy - dy * vx)) as Hq. unfold Rsqr in Hq.
    nra. }
  rewrite <-Hsq in Hcs. clearbody dx dy vx vy.
  set (s := dx * vx + dy * vy) in *.
  assert (Hs : s <= 2500) by nra.
  replace ((dx / 2 + vx / 10) * (dx / 2 + vx / 10)
           + (dy / 2 + vy / 10) * (dy / 2 + vy / 10))
    with ((dx * dx + dy * dy) / 4 + s / 10 + (vx * vx + vy * vy) / 100)
    by (unfold s; field).
  lra.
Qed.

(** C8, amended. A particle at distance 10 from the centre whose speed is
    at most 250 is stepped by the next tick that visits it to a distance
    of at most 30, two short of the swallow radius, and is out of the
    registry after that tick. *)
Theorem slow_particle_at_10_is_swallowed st l p :
  wf st → heap st !! l = Some (OParticle p) →
  dist (center st) (pos p) = 10 →
  p_vx p * p_vx p + p_vy p * p_vy p <= 250 * 250 →
  l ∈ (tick_log st).*1 →
  (∀ r, (l, r) ∈ tick_log st → r <= 30)
  ∧ l ∉ particles (tick st).
Proof.
  intros Hwf Hl Hd Hv Hin.
  assert (Hr : ∀ r, (l, r) ∈ tick_log st → r <= 30).
  { intros r Hlr.
    destruct (tick_log_step _ _ _ Hwf Hlr) as (p' & Hp' & ->).
    assert (p' = p) as -> by congruence.
    by apply step_from_10. }
  split; [exact Hr|].
  apply list_elem_of_fmap in Hin as [[l' r] [Heq Hlr]].
  simpl in Heq. subst l'. specialize (Hr r Hlr).
  unfold tick, tick_log in *. rewrite tick_run_forOf in *.
  eapply forOf_swallowed; [done..|].
  unfold swallowed, BH_RADIUS. exact_arith.
  apply bool_decide_eq_true. lra.
Qed.

(** A particle launched outwards at speed 250, 10 from the centre of a
    12000 by 800 window. *)
Lemma slow_particle_at_10_is_swallowed_witness :
  let st := run [MouseDown 6010 400; MouseUp 11010 400] (init 12000 800) in
  (∀ r, (1%positive, r) ∈ tick_log st → r <= 30)
  ∧ 1%positive ∉ particles (tick st).
Proof.
  intros st.
  apply (slow_particle_at_10_is_swallowed st 1%positive
           (Particle 6010 400 ((11010 - 6010) * (5 / 100))
              ((400 - 400) * (5 / 100)) 0 0 [])).
  - apply wf_run, wf_init.
  - reflexivity.
  - unfold dist. cbn.
    replace (_ + _) with (10 * 10) by lra. apply sqrt_square. lra.
  - cbn. lra.
  - unfold tick_log. cbn. apply list_elem_of_here.
Defined.
End ExactRegistry.

(** ** More on the integrator and the loop, in exact arithmetic *)

Section ExactDynamics.
Local Open Scope R_scope.
Implicit Types (c q : point R) (p : particle R) (st : sim R) (l : loc).

(** The field is central: a multiple of the offset to the centre. *)
Lemma acceleration_central c q :
  ∃ k, a_ax (acceleration c q) = k * (pt_x c - pt_x q)
       ∧ a_ay (acceleration c q) = k * (pt_y c - pt_y q).
Proof.
  destruct (Req_dec_T (dist c q) 0) as [Hz|Hnz].
  - apply dist_zero_iff in Hz as ->. exists 0.
    rewrite acceleration_at_centre. simpl. lra.
  - assert (Hne : q ≠ c) by (intros Heq; by apply dist_zero_iff in Heq).
    pose proof (dist_pos c q Hne) as Hr.
    exists (G * M / (dist c q * dist c q) / dist c q).
    rewrite (acceleration_off_centre c q Hne). simpl.
    split; field; lra.
Qed.

(** X18. A step of any size conserves the angular
    momentum about the centre exactly: the field is central. *)
Theorem stepVerlet_conserves_angular_momentum c p h :
  angular_momentum c (stepVerlet c p h).1 = angular_momentum c p.
Proof.
  rewrite stepVerlet_exact. unfold velocity_verlet, angular_momentum.
  cbn zeta. cbn [fst p_x p_y p_vx p_vy].
  destruct (acceleration_central c (pos p)) as (k0 & -> & ->).
  cbn [pos pt_x pt_y].
  set (x1 := p_x p + p_vx p * h + 1 / 2 * (k0 * (pt_x c - p_x p)) * h ^ 2).
  set (y1 := p_y p + p_vy p * h + 1 / 2 * (k0 * (pt_y c - p_y p)) * h ^ 2).
  destruct (acceleration_central c (Point x1 y1)) as (k1 & -> & ->).
  cbn [pt_x pt_y]. unfold x1, y1. ring.
Qed.

Lemma velocity_verlet_reversible c p h :
  let p1 := (velocity_verlet c p h).1 in
  let back := (velocity_verlet c (reversed p1) h).1 in
  p_x back = p_x p ∧ p_y back = p_y p
  ∧ p_vx back = - p_vx p ∧ p_vy back = - p_vy p.
Proof.
  unfold velocity_verlet, reversed, pos, set_vx, set_vy.
  cbn [fst p_x p_y p_vx p_vy p_trace p_ax p_ay].
  set (a0 := acceleration c (Point (p_x p) (p_y p))).
  set (x1 := p_x p + p_vx p * h + 1 / 2 * a_ax a0 * h ^ 2).
  set (y1 := p_y p + p_vy p * h + 1 / 2 * a_ay a0 * h ^ 2).
  set (a1 := acceleration c (Point x1 y1)).
  cbv zeta.
  assert (Hx : x1 + - (p_vx p + 1 / 2 * (a_ax a0 + a_ax a1) * h) * h
                + 1 / 2 * a_ax a1 * h ^ 2 = p_x p) by (unfold x1; ring).
  assert (Hy : y1 + - (p_vy p + 1 / 2 * (a_ay a0 + a_ay a1) * h) * h
                + 1 / 2 * a_ay a1 * h ^ 2 = p_y p) by (unfold y1; ring).
  rewrite Hx, Hy. fold a0.
  repeat split; ring.
Qed.

(** X19. The step is time-reversible: reversing the velocity after
    a step and stepping again with the same step size leads back to the
    starting position, with the starting velocity reversed. *)
Theorem stepVerlet_time_reversible c p h :
  let back := (stepVerlet c (reversed (stepVerlet c p h).1) h).1 in
  p_x back = p_x p ∧ p_y back = p_y p
  ∧ p_vx back = - p_vx p ∧ p_vy back = - p_vy p.
Proof.
  rewrite !stepVerlet_exact. apply velocity_verlet_reversible.
Qed.

(** X20. A particle at rest on the centre stays there, its stored
    acceleration set to zero; the step returns [r = 0], which the swallow
    test accepts. *)
Theorem particle_resting_on_centre c ax ay tr h :
  stepVerlet c (Particle (pt_x c) (pt_y c) 0 0 ax ay tr) h
  = (Particle (pt_x c) (pt_y c) 0 0 0 0 tr, 0)
  ∧ swallowed (0 : R) = true.
Proof.
  split.
  - rewrite stepVerlet_exact. unfold velocity_verlet. cbn zeta.
    assert (Hp : pos (Particle (pt_x c) (pt_y c) 0 0 ax ay tr) = c)
      by by destruct c.
    assert (Hc : Point (pt_x c) (pt_y c) = c) by by destruct c.
    rewrite Hp, acceleration_at_centre.
    cbn [a_ax a_ay a_r p_x p_y p_vx p_vy p_trace].
    replace (pt_x c + 0 * h + 1 / 2 * 0 * h ^ 2) with (pt_x c) by ring.
    replace (pt_y c + 0 * h + 1 / 2 * 0 * h ^ 2) with (pt_y c) by ring.
    rewrite Hc, acceleration_at_centre. cbn [a_ax a_ay a_r].
    f_equal. f_equal; ring.
  - unfold swallowed, BH_RADIUS. exact_arith.
    apply bool_decide_eq_true. lra.
Qed.

(** With the centre in the middle of the window the two removal tests
    never hold together. *)
Lemma centred_no_both st l :
  wf st → centred st → l ∈ particles st → both_tests st l = false.
Proof.
  intros Hwf Hc Hin. destruct (wf_registry _ Hwf l Hin) as [p Hp].
  unfold both_tests.
  destruct (swallowed (advance l st).2) eqn:Hsw; [|done]. cbn [andb].
  revert Hsw. rewrite (advance_particle _ _ _ Hp). cbn zeta. cbn [fst snd].
  intros Hsw. rewrite stepVerlet_r in Hsw.
  eapply swallowed_not_offscreen; [done| | |exact Hsw].
  - cbn. apply lookup_insert_eq.
  - cbn [center with_heap]. by rewrite pos_record_trace.
Qed.

(** X2. In a well-formed state with the centre in the middle of the
    window, a particle of the registry is missing after the tick if and
    only if the loop stepped it and one of its two removal tests held. *)
Theorem tick_removes_exactly st l :
  wf st → centred st → l ∈ particles st →
  l ∉ particles (tick st)
  ↔ l ∈ (tick_log st).*1 ∧ doomed st l = true.
Proof.
  intros Hwf Hc Hl.
  destruct (tick_run_summary st Hwf) as [Hp Hv].
  { apply forallb_forall. intros x Hx%list_elem_of_In.
    by rewrite (centred_no_both st x). }
  rewrite Hp, Hv. split.
  - intros Hout. destruct (survivors_missing _ _ _ Hl Hout). done.
  - intros [Hvis Hd]. apply visited_doomed_gone; [apply Hwf|done..].
Qed.

(** Two particles dropped 33 and 10 from the centre; the second one. *)
Lemma tick_removes_exactly_witness :
  let st := run [MouseDown 533 400; MouseUp 533 400;
                 MouseDown 510 400; MouseUp 510 400] (init 1000 800) in
  2%positive ∉ particles (tick st)
  ↔ 2%positive ∈ (tick_log st).*1 ∧ doomed st 2%positive = true.
Proof.
  intros st. apply (tick_removes_exactly st 2%positive).
  - apply wf_run, wf_init.
  - apply run_centred; [repeat constructor|apply init_centred; lra].
  - change (2%positive ∈ [1; 2]%positive).
    apply list_elem_of_further, list_elem_of_here.
Defined.
End ExactDynamics.

(** ** Runs in binary64 *)

Section Runs.
Local Open Scope string_scope.
Implicit Types (st : sim float) (l : loc).

(** The decimal literals of the script are the quotients used for
    them. *)
Lemma decimal_literals :
  (dt : float) = 0x1.999999999999ap-4%float
  ∧ (half : float) = 0x1p-1%float
  ∧ (vscale : float) = 0x1.999999999999ap-5%float.
Proof. vm_compute. repeat split; reflexivity. Qed.

(** At the centre, in binary64 too. *)
Example acceleration_at_centre_binary64 :
  acceleration (Point (lit 500) (lit 400) : point float)
               (Point (lit 500) (lit 400))
  = Accel (lit 0) (lit 0) (lit 0).
Proof. vm_compute. reflexivity. Qed.

(** And without the guard binary64 yields NaN there: [0 / 0]. *)
Example guard_is_needed_binary64 :
  let a := acceleration_without_guard (Point (lit 500) (lit 400))
                                      (Point (lit 500) (lit 400)) in
  PrimFloat.is_nan (a_ax a) = true ∧ PrimFloat.is_nan (a_ay a) = true
  ∧ a_r a = lit 0.
Proof. vm_compute. repeat split; reflexivity. Qed.

(** C4, at the failing input.  The registry holds particles 1 and 3;
    particle 3 lies at rest 10 from the centre, inside the swallow radius,
    and its step would return [r = 5].  The tick steps particle 1, which
    is swallowed and spliced out, and ends: particle 3 is not stepped,
    neither removal test is taken on it, and it is still in the registry
    after the tick, its object unchanged.  Only the tick after that
    removes it. *)
Theorem live_particle_is_not_tested :
  particles inside_scenario = [1; 3]%positive
  ∧ heap inside_scenario !! 3%positive
    = Some (OParticle (Particle (lit 510) (lit 400) (lit 0) (lit 0)
                                (lit 0) (lit 0) []))
  ∧ center inside_scenario = Point (lit 500) (lit 400)
  ∧ (advance 3%positive inside_scenario).2 = lit 5
  ∧ swallowed (advance 3%positive inside_scenario).2 = true
  ∧ (tick_log inside_scenario).*1 = [1%positive]
  ∧ (swallowed <$> (tick_log inside_scenario).*2) = [true]
  ∧ particles (tick inside_scenario) = [3%positive]
  ∧ heap (tick inside_scenario) !! 3%positive
    = heap inside_scenario !! 3%positive
  ∧ (tick_log (tick inside_scenario)).*1 = [3%positive]
  ∧ particles (tick (tick inside_scenario)) = [].
Proof. vm_compute. repeat split; reflexivity. Qed.

(** C5, at the failing input.  The registry holds particles 1 and 3; the
    tick steps 1, which is swallowed and spliced out, and the iterator
    then moves past particle 3: it is not visited, and its object is
    after the tick what it was before. *)
Theorem for_of_skips_after_removal :
  particles skip_scenario = [1; 3]%positive
  ∧ (tick_log skip_scenario).*1 = [1%positive]
  ∧ particles (tick skip_scenario) = [3%positive]
  ∧ heap (tick skip_scenario) !! 3%positive = heap skip_scenario !! 3%positive
  ∧ trace_length (tick skip_scenario) 3%positive = Some 0.
Proof. vm_compute. repeat split; reflexivity. Qed.

(** C6, at the failing input.  Particle 6 is launched behind particles 1
    and 3, which are swallowed in the next two frames, 3 first; it is
    skipped in both.  After 1201 frames it is still in the registry, with
    a trace of 1199 entries. *)
Theorem skipped_particle_has_short_trace :
  let st := run (replicate 1201 Frame) short_trace_scenario in
  particles short_trace_scenario = [1; 3; 6]%positive
  ∧ particles st = [6%positive]
  ∧ trace_length st 6%positive = Some 1199.
Proof. vm_compute. repeat split; reflexivity. Qed.

(** C8 fails for a fast particle: launched 10 from the centre with
    velocity [(299, 0)], it is stepped by the next tick to distance 34.9
    and stays in the registry. *)
Lemma fast_particle_at_10_survives :
  center fast_scenario = Point (lit 6000) (lit 400)
  ∧ heap fast_scenario !! 1%positive
    = Some (OParticle (Particle (lit 6010) (lit 400) (lit 299) (lit 0)
                                (lit 0) (lit 0) []))
  ∧ a_r (acceleration (center fast_scenario) (Point (lit 6010) (lit 400)))
    = lit 10
  ∧ (tick_log fast_scenario).*1 = [1%positive]
  ∧ (swallowed <$> (tick_log fast_scenario).*2) = [false]
  ∧ particles (tick fast_scenario) = [1%positive].
Proof. vm_compute. repeat split; reflexivity. Qed.

(** The amended bound in binary64: at speed 250 each of the four launches
    of [brisk_scenarios] is stepped to a distance of at most 30 and
    swallowed. *)
Example brisk_particles_are_swallowed :
  (λ st, ((tick_log st).*1,
          (λ r, PrimFloat.leb r 30) <$> (tick_log st).*2,
          particles (tick st))) <$> brisk_scenarios
  = replicate 4 ([1%positive], [true], []).
Proof. vm_compute. reflexivity. Qed.

(** Why the bound keeps a margin: in exact arithmetic every speed below
    270 ends inside the radius, but binary64 rounds the step of a particle
    moving outwards at the largest speed below 270 to [r = 32] exactly,
    and [32 < 32] fails. *)
Example rounding_at_the_radius :
  let st := outward_scenario 0x1.0dfffffffffffp+8%float in
  (PrimFloat.ltb 0x1.0dfffffffffffp+8 270 = true)
  ∧ tick_log st = [(1%positive, 32%float)]
  ∧ particles (tick st) = [1%positive].
Proof. vm_compute. repeat split; reflexivity. Qed.

Lemma swallowed_never_returns_witness :
  let st := drop_scenario in
  let l := 1%positive in
  (l ∉ particles (tick st))
  ∧ (l ∉ (animate st).2)
  ∧ ∀ es, let st' := run es (tick st) in
      (l ∉ particles st')
      ∧ (l ∉ (tick_log st').*1)
      ∧ (l ∉ (animate st').2).
Proof.
  intros st l.
  apply (swallowed_never_returns st l (visit l st).2).
  - apply wf_run, wf_init.
  - vm_compute. apply list_elem_of_here.
  - vm_compute. reflexivity.
Defined.

Lemma trace_entries_are_copies_witness :
  let st := orbit_scenario in
  let l := 1%positive in
  let p := match heap st !! l with
           | Some (OParticle p) => p
           | _ => Particle (lit 0) (lit 0) (lit 0) (lit 0) (lit 0) (lit 0) []
           end in
  (∃ p' t,
      heap (advance l st).1 !! l = Some (OParticle p')
      ∧ pos p' = pos (stepVerlet (center st) p dt).1
      ∧ last (p_trace p') = Some t
      ∧ heap st !! t = None
      ∧ heap (advance l st).1 !! t = Some (OPoint (pos p')))
  ∧ (∀ t, t ∈ p_trace p →
      ∃ q, heap st !! t = Some (OPoint q)
           ∧ ∀ es, heap (run es st) !! t = Some (OPoint q)).
Proof.
  intros st l p.
  apply (trace_entries_are_copies st l p).
  - apply wf_run, wf_init.
  - vm_compute. reflexivity.
Defined.

(** The reset of a registry of five, then a frame. *)
Example reset_five :
  length (particles five_scenario) = 5
  ∧ particles (resetParticle five_scenario) = []
  ∧ handle Frame (resetParticle five_scenario) = resetParticle five_scenario.
Proof. vm_compute. repeat split; reflexivity. Qed.

(** *** Instances *)

Lemma tick_summary_witness :
  let st := skip_scenario in
  particles (tick st) = survivors (doomed st) (particles st)
  ∧ (tick_log st).*1 = visited (doomed st) (particles st).
Proof.
  apply (tick_summary skip_scenario).
  - apply wf_run, wf_init.
  - vm_compute. reflexivity.
Defined.

(** The closed form on the three particles of [short_trace_scenario]:
    particle 3 is removed, particle 6 passed over. *)
Example summary_of_three :
  doomed short_trace_scenario <$> [1; 3; 6]%positive = [false; true; false]
  ∧ survivors (doomed short_trace_scenario) [1; 3; 6]%positive
    = [1; 6]%positive
  ∧ visited (doomed short_trace_scenario) [1; 3; 6]%positive
    = [1; 3]%positive
  ∧ particles (tick short_trace_scenario) = [1; 6]%positive
  ∧ (tick_log short_trace_scenario).*1 = [1; 3]%positive.
Proof. vm_compute. repeat split; reflexivity. Qed.

Lemma tick_without_removal_witness :
  let st := five_scenario in
  (tick_log st).*1 = particles st ∧ particles (tick st) = particles st.
Proof.
  apply (tick_without_removal five_scenario).
  - apply wf_run, wf_init.
  - intros l Hl. apply negb_true_iff. revert l Hl.
    apply (forallb_elem_of (λ l, negb (doomed five_scenario l))).
    vm_compute. reflexivity.
Defined.

Lemma escaped_never_returns_witness :
  let st := escape_scenario in
  let l := 1%positive in
  (l ∉ particles (tick st))
  ∧ ∀ es, let st' := run es (tick st) in
      (l ∉ particles st') ∧ (l ∉ (tick_log st').*1).
Proof.
  apply (escaped_never_returns escape_scenario 1%positive).
  - apply wf_run, wf_init.
  - vm_compute. apply list_elem_of_here.
  - vm_compute. reflexivity.
Defined.

Lemma double_splice_takes_last_witness :
  let st := off_centre_state in
  let l := 1%positive in
  let gone := filter (λ x, x ≠ l) (particles st) in
  particles (visit l st).1 = take (length gone - 1) gone.
Proof.
  apply (double_splice_takes_last off_centre_state 1%positive).
  - apply (bool_decide_unpack _). vm_compute. exact I.
  - apply list_elem_of_here.
  - vm_compute. reflexivity.
  - vm_compute. reflexivity.
Defined.

(** There the visit to particle 1 empties the registry of two. *)
Example double_splice_empties :
  particles off_centre_state = [1; 2]%positive
  ∧ particles (visit 1%positive off_centre_state).1 = [].
Proof. vm_compute. done. Qed.

Lemma tick_visits_once_witness :
  let st := five_scenario in
  NoDup (tick_log st).*1 ∧ (tick_log st).*1 `sublist_of` particles st.
Proof. apply (tick_visits_once five_scenario). apply wf_run, wf_init. Defined.

Lemma tick_leaves_unvisited_witness :
  heap (tick skip_scenario) !! 3%positive = heap skip_scenario !! 3%positive.
Proof.
  apply (tick_leaves_unvisited skip_scenario 3%positive).
  - vm_compute. eauto.
  - vm_compute. intros Hin. apply list_elem_of_singleton in Hin. discriminate.
Defined.

(** A trace at its capacity: the step drops the oldest entry. *)
Lemma trace_is_fifo_witness :
  let st := full_trace_scenario in
  let l := 1%positive in
  let p := match heap st !! l with
           | Some (OParticle p) => p
           | _ => Particle (lit 0) (lit 0) (lit 0) (lit 0) (lit 0) (lit 0) []
           end in
  ∃ p', heap (advance l st).1 !! l = Some (OParticle p')
        ∧ pos p' = pos (stepVerlet (center st) p dt).1
        ∧ trace_positions (advance l st).1 p'
          = drop (length (p_trace p) + 1 - 1200)
                 (trace_positions st p ++ [Some (pos p')]).
Proof.
  intros st l p. apply (trace_is_fifo st l p).
  - apply wf_run, wf_init.
  - vm_compute. reflexivity.
  - apply Nat.leb_le. vm_compute. reflexivity.
Defined.

Example full_trace :
  trace_length full_trace_scenario 1%positive = Some 1200
  ∧ trace_length (tick full_trace_scenario) 1%positive = Some 1200.
Proof. vm_compute. done. Qed.

Lemma frame_ignores_ui_witness :
  handle Frame (handle ToggleVelocity orbit_scenario)
  = handle ToggleVelocity (handle Frame orbit_scenario).
Proof.
  apply (frame_ignores_ui ToggleVelocity orbit_scenario). reflexivity.
Defined.

Lemma reset_forgets_witness :
  1%positive ∈ particles five_scenario
  ∧ ∀ es, 1%positive ∉ particles (run es (resetParticle five_scenario)).
Proof.
  assert (Hin : 1%positive ∈ particles five_scenario).
  { vm_compute. apply list_elem_of_here. }
  split; [exact Hin|].
  apply (reset_forgets five_scenario 1%positive); [|exact Hin].
  apply wf_run, wf_init.
Defined.

Lemma drawParticle_polyline_witness :
  let st := orbit_scenario in
  let l := 1%positive in
  let p := match heap st !! l with
           | Some (OParticle p) => p
           | _ => Particle (lit 0) (lit 0) (lit 0) (lit 0) (lit 0) (lit 0) []
           end in
  ∃ qs, trace_positions st p = Some <$> qs
        ∧ (∀ q, last qs = Some q → q = pos p)
        ∧ drawParticle st (Some l)
          = (if traceOn st
             then [BeginPath] ++ polyline qs
                  ++ [StrokeStyle "rgba(255,255,255,0.6)";
                      LineWidth (lit 1); Stroke]
             else [])
            ++ [FillStyle (Colour "#fff");
                BeginPath; Arc (p_x p) (p_y p) (lit 3); Fill].
Proof.
  intros st l p. apply (drawParticle_polyline st l p).
  - apply wf_run, wf_init.
  - apply run_trace_tip.
  - vm_compute. reflexivity.
Defined.

Lemma acceleration_arrow_shows_stored_witness :
  let st := orbit_scenario in
  let l := 1%positive in
  let r := match tick_log st with
           | (_, r) :: _ => r
           | [] => lit 0
           end in
  let p' := match heap (tick st) !! l with
            | Some (OParticle p) => p
            | _ => Particle (lit 0) (lit 0) (lit 0) (lit 0) (lit 0) (lit 0) []
            end in
  acceleration (center (tick st)) (pos p') = Accel (p_ax p') (p_ay p') r
  ∧ acceleration_arrow (tick st) l
    = [StrokeStyle "rgba(255,80,80,0.9)"; LineWidth (lit 2); BeginPath;
       MoveTo (p_x p') (p_y p');
       LineTo (nadd (p_x p') (nmul (p_ax p') (lit 20)))
              (nadd (p_y p') (nmul (p_ay p') (lit 20)));
       Stroke;
       FillStyle (Colour "#f88"); Font "12px Arial";
       FillText "a="
         (nsqrt (nadd (nmul (p_ax p') (p_ax p')) (nmul (p_ay p') (p_ay p'))))
         (nadd (p_x p') (lit 6)) (nsub (p_y p') (lit 6))].
Proof.
  intros st l r p'. apply (acceleration_arrow_shows_stored st l r p').
  - apply wf_run, wf_init.
  - vm_compute. apply list_elem_of_here.
  - vm_compute. reflexivity.
Defined.
End Runs.
